(** * graph-runtime-poc: the graph runtime of [src/runtime.ts]

    A shallow embedding of the orchestrator: the loader ([loadGraph]), the
    Kahn resolver ([topoSort]), the input policy ([resolveInput]), the
    module executor ([executeNode]) and the runner ([runGraph]), followed
    by the properties of the specification that concern them.

    Conventions.
    - A JavaScript [Map] is an association list in insertion order
      ([JsMap]): [set] on a key that is present replaces the value where it
      stands, [set] on a new key appends.
    - A thrown exception (or a rejected promise) is the right injection of
      a sum; [error] has one constructor per throw site of the file and per
      failure of the platform functions it calls.
    - The platform (file system, [JSON.parse], [path], [WebAssembly]) is a
      record [Host] of functions; the runner logs each effect it performs
      in a trace of [event]s. *)

From Stdlib Require Import List String ZArith Bool Arith Lia.
From Stdlib Require Import Permutation Relations.
From Stdlib Require Import Ascii DecimalString.
Import ListNotations.

Local Open Scope string_scope.
Local Open Scope list_scope.

(** ** JavaScript maps *)

Module JsMap.

Definition t (V : Type) : Type := list (string * V).

Definition empty {V : Type} : t V := [].

(** [m.get(k)]: [None] is [undefined]. *)
Fixpoint get {V : Type} (k : string) (m : t V) : option V :=
  match m with
  | [] => None
  | (k', v) :: m' => if String.eqb k k' then Some v else get k m'
  end.

(** [m.has(k)] *)
Definition has {V : Type} (k : string) (m : t V) : bool :=
  match get k m with
  | Some _ => true
  | None => false
  end.

(** [m.set(k, v)] *)
Fixpoint set {V : Type} (k : string) (v : V) (m : t V) : t V :=
  match m with
  | [] => [(k, v)]
  | (k', v') :: m' =>
      if String.eqb k k' then (k', v) :: m' else (k', v') :: set k v m'
  end.

(** [m.keys()] and [m.entries()], in insertion order. *)
Definition keys {V : Type} (m : t V) : list string := map fst m.
Definition entries {V : Type} (m : t V) : list (string * V) := m.

End JsMap.

(** ** Decoded JSON values

    The runtime never computes with a JSON number, it only tells numbers
    from the other kinds of value; the payload of [JNumber] is kept as an
    integer. *)

#[local] Set Warnings "-register-all".

Inductive json : Type :=
| JNull
| JBool (b : bool)
| JNumber (n : Z)
| JString (s : string)
| JArray (items : list json)
| JObject (fields : list (string * json)).

(** A JavaScript value read out of a decoded document: [None] is
    [undefined]. *)
Definition jsval : Type := option json.

(** Own property [k] of an object built by [JSON.parse]: when the text
    repeats a key, the last occurrence is the one that stays. *)
Fixpoint field (k : string) (fields : list (string * json)) : jsval :=
  match fields with
  | [] => None
  | (k', v) :: rest =>
      match field k rest with
      | Some later => Some later
      | None => if String.eqb k k' then Some v else None
      end
  end.

(** ** The data model of [runtime.ts] *)

(** [interface NodeSpec].  [id] and [dependsOn] are typed as declared.
    [wasm] is declared [string], but [loadGraph] casts the decoded document
    without looking at its nodes, so what [executeNode] hands to
    [path.resolve] is whatever stands under the key [wasm]: the field holds
    that raw value. *)
Record NodeSpec : Type := {
  id : string;
  wasm : jsval;
  dependsOn : option (list string)
}.

(** [node.dependsOn ?? []] *)
Definition deps (node : NodeSpec) : list string :=
  match dependsOn node with
  | Some ds => ds
  | None => []
  end.

(** [interface ExecutionRecord] *)
Record ExecutionRecord : Type := {
  input : Z;
  output : Z;
  dependencies : list string
}.

(** [Map<string, ExecutionRecord>] *)
Definition ExecutionState : Type := JsMap.t ExecutionRecord.

(** ** Errors *)

Inductive error : Type :=
| ReadFailure (path : string)
    (* readFile rejects *)
| JsonSyntaxError
    (* JSON.parse throws *)
| NullGraph
    (* reading [.nodes] of null: the engine's TypeError *)
| NodesNotArray
    (* runtime.ts:28 *)
| DuplicateNode (node : string)
    (* runtime.ts:43 *)
| UnknownDependency (node dep : string)
    (* runtime.ts:53 *)
| NodeMissing (node : string)
    (* runtime.ts:72 *)
| NegativeIndegree (node : string)
    (* runtime.ts:79 *)
| CyclicGraph
    (* runtime.ts:89 *)
| MissingUpstreamState (dep : string)
    (* runtime.ts:109 *)
| InvalidPathArgument
    (* path.resolve refuses an argument that is not a string *)
| InstantiateFailure
    (* WebAssembly.instantiate rejects *)
| MissingEntryPoint (node : string)
    (* runtime.ts:123 *)
| ModuleTrap (node : string)
    (* the call of the exported function throws *)
| OutsideInterface
    (* the decoded nodes are not objects with a string [id] and a
       [dependsOn] that is absent, null or an array of strings: the untyped
       behaviour of the script on such documents is not modelled *)
| OutOfFuel.
    (* the bound of the model's queue loop was reached; see
       [topoSort_never_out_of_fuel] *)

(** The text of the [Error]s that [runtime.ts] itself constructs. *)
Definition message (e : error) : option string :=
  (match e with
  | NodesNotArray => Some "Graph specification must contain a nodes array."
  | DuplicateNode n => Some ("Duplicate node id detected: " ++ n)
  | UnknownDependency n d =>
      Some ("Node " ++ n ++ " depends on unknown node " ++ d)
  | NodeMissing n =>
      Some ("Internal error: node " ++ n ++ " missing during sort.")
  | NegativeIndegree n => Some ("Negative indegree encountered for " ++ n)
  | CyclicGraph => Some "Graph contains a cycle; topological sort failed."
  | MissingUpstreamState d => Some ("Missing state for dependency " ++ d)
  | MissingEntryPoint n =>
      Some ("Node " ++ n ++ " does not export a main function.")
  | _ => None
  end)%string.

(** The error kinds of the specification that group several throw sites.
    [MalformedGraph]: the document cannot be decoded, or it has no [nodes]
    array. *)
Definition MalformedGraph (e : error) : Prop :=
  e = JsonSyntaxError \/ e = NullGraph \/ e = NodesNotArray.

(** [ResolverFault]: the two internal checks of the queue loop. *)
Definition ResolverFault (e : error) : Prop :=
  (exists n, e = NodeMissing n) \/ (exists n, e = NegativeIndegree n).

Definition result (A : Type) : Type := (A + error)%type.

(** ** topoSort *)

(** The three maps that [topoSort] builds. *)
Record tables : Type := {
  inDegree : JsMap.t Z;
  adjacency : JsMap.t (list string);
  byId : JsMap.t NodeSpec
}.

Definition no_tables : tables :=
  {| inDegree := JsMap.empty; adjacency := JsMap.empty; byId := JsMap.empty |}.

(** First loop (lines 41-48): register every node, refusing a repeated id. *)
Fixpoint index_nodes (nodes : list NodeSpec) (tb : tables) : result tables :=
  match nodes with
  | [] => inl tb
  | node :: rest =>
      if JsMap.has (id node) (byId tb) then inr (DuplicateNode (id node))
      else index_nodes rest
             {| inDegree := JsMap.set (id node) 0%Z (inDegree tb);
                adjacency := JsMap.set (id node) [] (adjacency tb);
                byId := JsMap.set (id node) node (byId tb) |}
  end.

(** [inDegree.get(k) ?? 0] *)
Definition degree (k : string) (deg : JsMap.t Z) : Z :=
  match JsMap.get k deg with
  | Some d => d
  | None => 0%Z
  end.

(** [adjacency.get(dep)?.push(k)] *)
Definition push_dependent (dep k : string) (adj : JsMap.t (list string))
  : JsMap.t (list string) :=
  match JsMap.get dep adj with
  | Some dependents => JsMap.set dep (dependents ++ [k]) adj
  | None => adj
  end.

(** Inner loop of lines 50-58, over the dependencies of one node. *)
Fixpoint link_deps (node : NodeSpec) (ds : list string) (tb : tables)
  : result tables :=
  match ds with
  | [] => inl tb
  | dep :: ds' =>
      if negb (JsMap.has dep (byId tb))
      then inr (UnknownDependency (id node) dep)
      else link_deps node ds'
             {| inDegree :=
                  JsMap.set (id node) (degree (id node) (inDegree tb) + 1)%Z
                            (inDegree tb);
                adjacency := push_dependent dep (id node) (adjacency tb);
                byId := byId tb |}
  end.

(** Outer loop of lines 50-58. *)
Fixpoint link (nodes : list NodeSpec) (tb : tables) : result tables :=
  match nodes with
  | [] => inl tb
  | node :: rest =>
      match link_deps node (deps node) tb with
      | inr e => inr e
      | inl tb' => link rest tb'
      end
  end.

(** Lines 60-65: the ids of in-degree 0, in the order of the map. *)
Fixpoint seed (es : list (string * Z)) : list string :=
  match es with
  | [] => []
  | (k, d) :: rest => if (d =? 0)%Z then k :: seed rest else seed rest
  end.

(** Lines 76-85: the loop over the dependents of a dequeued node.  It
    threads the in-degree map and the queue. *)
Fixpoint relax (neighbors : list string) (deg : JsMap.t Z) (queue : list string)
  : result (JsMap.t Z * list string) :=
  match neighbors with
  | [] => inl (deg, queue)
  | neighbor :: rest =>
      let nextDegree := (degree neighbor deg - 1)%Z in
      if (nextDegree <? 0)%Z then inr (NegativeIndegree neighbor)
      else relax rest (JsMap.set neighbor nextDegree deg)
                 (if (nextDegree =? 0)%Z then queue ++ [neighbor] else queue)
  end.

(** [adjacency.get(k) ?? []] *)
Definition dependents (k : string) (adj : JsMap.t (list string))
  : list string :=
  match JsMap.get k adj with
  | Some l => l
  | None => []
  end.

(** Lines 68-86: the queue loop.  [fuel] bounds the number of dequeues; the
    loop of the source has no bound, and [topoSort] below gives it as many
    rounds as there are nodes, which is never exceeded. *)
Fixpoint drain (fuel : nat) (tb : tables) (deg : JsMap.t Z)
    (queue : list string) (res : list NodeSpec) : result (list NodeSpec) :=
  match queue with
  | [] => inl res
  | k :: queue' =>
      match fuel with
      | O => inr OutOfFuel
      | S fuel' =>
          match JsMap.get k (byId tb) with
          | None => inr (NodeMissing k)
          | Some node =>
              match relax (dependents k (adjacency tb)) deg queue' with
              | inr e => inr e
              | inl (deg', queue'') =>
                  drain fuel' tb deg' queue'' (res ++ [node])
              end
          end
      end
  end.

Definition topoSort (nodes : list NodeSpec) : result (list NodeSpec) :=
  match index_nodes nodes no_tables with
  | inr e => inr e
  | inl tb0 =>
      match link nodes tb0 with
      | inr e => inr e
      | inl tb =>
          match
            drain (List.length nodes) tb (inDegree tb)
                  (seed (JsMap.entries (inDegree tb))) []
          with
          | inr e => inr e
          | inl res =>
              if negb (List.length res =? List.length nodes)%nat
              then inr CyclicGraph
              else inl res
          end
      end
  end.

(** ** resolveInput *)

Definition resolveInput (node : NodeSpec) (state : ExecutionState) : result Z :=
  let ds := deps node in
  if (List.length ds =? 0)%nat then inl 0%Z
  else
    match nth_error ds (List.length ds - 1) with
    | None =>
        (* [deps[i]] out of range is [undefined], which no record is stored
           under; the index is in range here *)
        inr (MissingUpstreamState "undefined")
    | Some lastDependency =>
        match JsMap.get lastDependency state with
        | None => inr (MissingUpstreamState lastDependency)
        | Some record => inl (output record)
        end
    end.

(** ** The platform *)

(** What a WebAssembly instance exports under a name: a function, here from
    the argument to its result ([None] when the call throws), or something
    that is not a function (a memory, a table, a global). *)
Inductive export : Type :=
| ExportFunction (f : Z -> option Z)
| ExportOther.

Record Host : Type := {
  (** [readFile]: the content of the file, [None] when the read fails *)
  readFile : string -> option string;
  (** [JSON.parse]: [None] when it throws *)
  JSON_parse : string -> option json;
  (** [path.resolve] and [path.dirname], on strings *)
  path_resolve : string -> string -> string;
  path_dirname : string -> string;
  (** [WebAssembly.instantiate(binary, {})]: the exports of the instance,
      [None] when it rejects *)
  instantiate : string -> option (list (string * export))
}.

(** The effects a run performs, in order. *)
Inductive event : Type :=
| ReadFile (path : string)
| Instantiate (binary : string)
| Invoke (node : string) (arg : Z).

(** Computations that may throw and that log their effects. *)
Definition M (A : Type) : Type := list event -> result A * list event.

Definition ret {A : Type} (a : A) : M A := fun tr => (inl a, tr).

Definition throw {A : Type} (e : error) : M A := fun tr => (inr e, tr).

Definition bind {A B : Type} (m : M A) (k : A -> M B) : M B :=
  fun tr =>
    match m tr with
    | (inl a, tr') => k a tr'
    | (inr e, tr') => (inr e, tr')
    end.

Definition emit (ev : event) : M unit := fun tr => (inl tt, tr ++ [ev]).

Definition lift {A : Type} (r : result A) : M A := fun tr => (r, tr).

Definition of_option {A : Type} (o : option A) (e : error) : M A :=
  match o with
  | Some a => ret a
  | None => throw e
  end.

Notation "x <- m ;; k" := (bind m (fun x => k))
  (at level 61, m at next level, right associativity).
Notation "m ;;; k" := (bind m (fun _ => k))
  (at level 61, right associativity).

(** [spec.nodes] on a value that is not null: only an object built from a
    JSON object can have the property. *)
Definition nodes_of (spec : json) : jsval :=
  match spec with
  | JObject fields => field "nodes" fields
  | _ => None
  end.

(** The items of an array of strings. *)
Fixpoint strings_of (items : list json) : option (list string) :=
  match items with
  | [] => Some []
  | JString s :: rest =>
      match strings_of rest with
      | Some ss => Some (s :: ss)
      | None => None
      end
  | _ :: _ => None
  end.

(** A decoded node seen through [interface NodeSpec]: the three properties
    the runtime reads, [node.id], [node.wasm] and [node.dependsOn]. *)
Definition asNodeSpec (v : json) : option NodeSpec :=
  match v with
  | JObject fields =>
      match field "id" fields with
      | Some (JString i) =>
          match field "dependsOn" fields with
          | None | Some JNull =>
              Some {| id := i; wasm := field "wasm" fields; dependsOn := None |}
          | Some (JArray items) =>
              match strings_of items with
              | Some ds =>
                  Some {| id := i; wasm := field "wasm" fields;
                          dependsOn := Some ds |}
              | None => None
              end
          | Some _ => None
          end
      | _ => None
      end
  | _ => None
  end.

Fixpoint asNodeSpecs (items : list json) : option (list NodeSpec) :=
  match items with
  | [] => Some []
  | v :: rest =>
      match asNodeSpec v, asNodeSpecs rest with
      | Some n, Some ns => Some (n :: ns)
      | _, _ => None
      end
  end.

(** [graph.nodes] of a loaded graph, typed. *)
Definition typed_nodes (graph : json) : result (list NodeSpec) :=
  match nodes_of graph with
  | Some (JArray items) =>
      match asNodeSpecs items with
      | Some ns => inl ns
      | None => inr OutsideInterface
      end
  | _ => inr OutsideInterface
  end.

Section Runtime.

Variable h : Host.

Definition read (path : string) : M string :=
  emit (ReadFile path) ;;; of_option (readFile h path) (ReadFailure path).

(** ** loadGraph *)
Definition loadGraph (graphPath : string) : M json :=
  payload <- read graphPath ;;
  spec <- of_option (JSON_parse h payload) JsonSyntaxError ;;
  match spec with
  | JNull => throw NullGraph
  | _ =>
      match nodes_of spec with
      | Some (JArray _) => ret spec
      | _ => throw NodesNotArray
      end
  end.

(** ** executeNode *)
Definition executeNode (baseDir : string) (node : NodeSpec)
    (state : ExecutionState) : M ExecutionState :=
  wasmPath <- match wasm node with
              | Some (JString p) => ret (path_resolve h baseDir p)
              | _ => throw InvalidPathArgument
              end ;;
  wasmBinary <- read wasmPath ;;
  emit (Instantiate wasmBinary) ;;;
  exports <- of_option (instantiate h wasmBinary) InstantiateFailure ;;
  match JsMap.get "main" exports with
  | Some (ExportFunction entry) =>
      input <- lift (resolveInput node state) ;;
      emit (Invoke (id node) input) ;;;
      output <- of_option (entry input) (ModuleTrap (id node)) ;;
      ret (JsMap.set (id node)
             {| input := input; output := output;
                dependencies := deps node |} state)
  | _ => throw (MissingEntryPoint (id node))
  end.

(** The loop of lines 143-145. *)
Fixpoint executeAll (baseDir : string) (ordered : list NodeSpec)
    (state : ExecutionState) : M ExecutionState :=
  match ordered with
  | [] => ret state
  | node :: rest =>
      state' <- executeNode baseDir node state ;;
      executeAll baseDir rest state'
  end.

(** ** runGraph *)
Definition runGraph (graphPath : string) : M ExecutionState :=
  graph <- loadGraph graphPath ;;
  nodes <- lift (typed_nodes graph) ;;
  ordered <- lift (topoSort nodes) ;;
  let baseDir := path_dirname h graphPath in
  executeAll baseDir ordered JsMap.empty.

End Runtime.

(** ** Vocabulary of the properties *)

Definition ids (nodes : list NodeSpec) : list string := map id nodes.

(** Every [dependsOn] entry names a node of the graph. *)
Definition deps_closed (nodes : list NodeSpec) : Prop :=
  forall n d, In n nodes -> In d (deps n) -> In d (ids nodes).

(** The dependency edges of a graph, as pairs (dependent, dependency), in
    the order the second loop of [topoSort] visits them. *)
Definition edges (nodes : list NodeSpec) : list (string * string) :=
  flat_map (fun n => map (fun d => (id n, d)) (deps n)) nodes.

(** Every dependency of a node stands strictly before it. *)
Definition deps_before (res : list NodeSpec) : Prop :=
  forall l1 N l2, res = l1 ++ N :: l2 ->
    forall D, In D (deps N) -> exists M, In M l1 /\ id M = D.

(** [a] depends on [b]: some node with id [a] lists [b]. *)
Definition depends_on (nodes : list NodeSpec) (a b : string) : Prop :=
  exists n, In n nodes /\ id n = a /\ In b (deps n).

(** A cycle: an id that reaches itself along one or more dependency edges
    (one edge for a self-loop). *)
Definition has_cycle (nodes : list NodeSpec) : Prop :=
  exists a, clos_trans string (depends_on nodes) a a.

(** Number of elements of a list that satisfy a test. *)
Definition cnt {A : Type} (p : A -> bool) (l : list A) : nat :=
  List.length (filter p l).

Definition mem (k : string) (l : list string) : bool :=
  existsb (String.eqb k) l.

(** In-degree still owed by [k] once the nodes of [done] are dequeued. *)
Definition pending (E : list (string * string)) (done : list string)
    (k : string) : nat :=
  cnt (fun e => String.eqb (fst e) k && negb (mem (snd e) done)) E.

(** Edges from [k] to [d]. *)
Definition multiplicity (E : list (string * string)) (k d : string) : nat :=
  cnt (fun e => String.eqb (fst e) k && String.eqb (snd e) d) E.

(** Dependents of [d], one per edge. *)
Definition adj_of (E : list (string * string)) (d : string) : list string :=
  map fst (filter (fun e => String.eqb (snd e) d) E).

(** The host serves document [doc] at [graphPath]. *)
Definition serves (h : Host) (graphPath : string) (doc : json) : Prop :=
  exists payload,
    readFile h graphPath = Some payload /\ JSON_parse h payload = Some doc.

(** The file at [path] is a module whose export [main] is the function [f]. *)
Definition module_at (h : Host) (path : string) (f : Z -> option Z) : Prop :=
  exists binary exports,
    readFile h path = Some binary /\
    instantiate h binary = Some exports /\
    JsMap.get "main" exports = Some (ExportFunction f).

(** The range of a WebAssembly i32. *)
Definition in_i32 (z : Z) : Prop := (- 2 ^ 31 <= z < 2 ^ 31)%Z.

(** ** Invariants of the loops of [topoSort] *)

(** The tables after the first loop. *)
Definition registered (nodes : list NodeSpec) : tables :=
  {| inDegree := map (fun n => (id n, 0%Z)) nodes;
     adjacency := map (fun n => (id n, @nil string)) nodes;
     byId := map (fun n => (id n, n)) nodes |}.

(** The tables once the edges [E] have been entered. *)
Definition linked (nodes : list NodeSpec) (E : list (string * string))
    (tb : tables) : Prop :=
  byId tb = map (fun n => (id n, n)) nodes /\
  JsMap.keys (inDegree tb) = ids nodes /\
  (forall k, In k (ids nodes) ->
     JsMap.get k (inDegree tb) = Some (Z.of_nat (pending E [] k))) /\
  (forall k, In k (ids nodes) ->
     JsMap.get k (adjacency tb) = Some (adj_of E k)).

(** Invariant of the loop over the dependents of the dequeued node [d]:
    [done] are the ids dequeued before [d], [pre] the dependents already
    visited. *)
Definition relax_inv (nodes : list NodeSpec) (E : list (string * string))
    (done : list string) (d : string) (pre : list string)
    (deg : JsMap.t Z) (queue : list string) : Prop :=
  NoDup (done ++ d :: queue) /\
  incl (done ++ d :: queue) (ids nodes) /\
  (forall k, In k (ids nodes) ->
     JsMap.get k deg =
     Some (Z.of_nat (pending E done k)
           - Z.of_nat (count_occ string_dec pre k))%Z) /\
  (forall x, In x (done ++ d :: queue) -> JsMap.get x deg = Some 0%Z).

(** Invariant of the queue loop. *)
Definition drain_inv (nodes : list NodeSpec) (E : list (string * string))
    (deg : JsMap.t Z) (queue : list string) (res : list NodeSpec) : Prop :=
  incl res nodes /\
  NoDup (ids res ++ queue) /\
  incl (ids res ++ queue) (ids nodes) /\
  (forall k, In k (ids nodes) ->
     JsMap.get k deg = Some (Z.of_nat (pending E (ids res) k))) /\
  (forall x, In x (ids res ++ queue) -> JsMap.get x deg = Some 0%Z) /\
  deps_before res.

(** ** Vocabulary of the claims about a run *)

(** Some step of [runGraph] on [graphPath] fails with [e]: the load, the
    resolution, or the execution of a node of the resolved order, the nodes
    before it having completed. *)
Inductive step_fails (h : Host) (graphPath : string) (tr : list event)
    (e : error) : Prop :=
| load_fails :
    fst (loadGraph h graphPath tr) = inr e ->
    step_fails h graphPath tr e
| resolution_fails graph nodes :
    fst (loadGraph h graphPath tr) = inl graph ->
    typed_nodes graph = inl nodes ->
    topoSort nodes = inr e ->
    step_fails h graphPath tr e
| node_fails graph tr1 nodes completed node rest state tr2 :
    loadGraph h graphPath tr = (inl graph, tr1) ->
    typed_nodes graph = inl nodes ->
    topoSort nodes = inl (completed ++ node :: rest) ->
    executeAll h (path_dirname h graphPath) completed JsMap.empty tr1
      = (inl state, tr2) ->
    fst (executeNode h (path_dirname h graphPath) node state tr2) = inr e ->
    step_fails h graphPath tr e.

(** [ran key h baseDir items state evs]: the decoded node objects [items]
    were executed one after the other, each from the module whose location
    stands under [key], leaving the records [state] and the effects [evs]. *)
Inductive ran (key : string) (h : Host) (baseDir : string)
  : list json -> ExecutionState -> list event -> Prop :=
| ran_nil : ran key h baseDir [] [] []
| ran_cons fields i w binary record items state evs :
    field "id" fields = Some (JString i) ->
    field key fields = Some (JString w) ->
    readFile h (path_resolve h baseDir w) = Some binary ->
    ran key h baseDir items state evs ->
    ran key h baseDir (JObject fields :: items) ((i, record) :: state)
        (ReadFile (path_resolve h baseDir w) :: Instantiate binary
         :: Invoke i (input record) :: evs).

(** The statement that nodes carry the location of their module under
    [key]: whenever a run succeeds, its effects after the read of the graph
    file are those of executing the node objects of the description, in the
    resolved order, from the path found under [key] and resolved against
    the directory of the graph file. *)
Definition located_by (key : string) : Prop :=
  forall h graphPath tr state,
    fst (runGraph h graphPath tr) = inl state ->
    exists doc items ordered evs,
      serves h graphPath doc /\
      nodes_of doc = Some (JArray items) /\
      Permutation items ordered /\
      snd (runGraph h graphPath tr) = tr ++ ReadFile graphPath :: evs /\
      ran key h (path_dirname h graphPath) ordered state evs.

(** ** The scenario of the README: three chained nodes *)

Definition node_object (i w : string) (ds : list string) : json :=
  JObject [("id", JString i); ("wasm", JString w);
           ("dependsOn", JArray (map JString ds))].

Definition pipeline_doc (w1 w2 w3 : string) : json :=
  JObject [("nodes", JArray [
    JObject [("id", JString "fetchUser"); ("wasm", JString w1)];
    node_object "calcDiscount" w2 ["fetchUser"];
    node_object "renderProfile" w3 ["calcDiscount"]])].

Definition pipeline_nodes (w1 w2 w3 : string) : list NodeSpec :=
  [ {| id := "fetchUser"; wasm := Some (JString w1); dependsOn := None |};
    {| id := "calcDiscount"; wasm := Some (JString w2);
       dependsOn := Some ["fetchUser"] |};
    {| id := "renderProfile"; wasm := Some (JString w3);
       dependsOn := Some ["calcDiscount"] |} ].

Definition pipeline_state : ExecutionState :=
  [("fetchUser",
    {| input := 0; output := 1001; dependencies := [] |});
   ("calcDiscount",
    {| input := 1001; output := 2001; dependencies := ["fetchUser"] |});
   ("renderProfile",
    {| input := 2001; output := 4002; dependencies := ["calcDiscount"] |})].

(** A host for the scenario: a directory [/app] with [graph.json] and the
    three binaries.  File contents are tokens; [JSON.parse] and
    [WebAssembly.instantiate] are given on those tokens only. *)
Definition join (base p : string) : string := (base ++ "/" ++ p)%string.

Definition i32_wrap (z : Z) : Z := ((z + 2 ^ 31) mod 2 ^ 32 - 2 ^ 31)%Z.

Definition demo_files (doc_token : string) (path : string) : option string :=
  if String.eqb path "/app/graph.json" then Some doc_token
  else if String.eqb path "/app/nodes/fetchUser.wasm" then Some "fetchUser"
  else if String.eqb path "/app/nodes/calcDiscount.wasm"
  then Some "calcDiscount"
  else if String.eqb path "/app/nodes/renderProfile.wasm"
  then Some "renderProfile"
  else None.

Definition demo_modules (binary : string) : option (list (string * export)) :=
  if String.eqb binary "fetchUser"
  then Some [("main", ExportFunction (fun _ => Some 1001%Z))]
  else if String.eqb binary "calcDiscount"
  then Some [("main", ExportFunction (fun x => Some (i32_wrap (x * 2 - 1))))]
  else if String.eqb binary "renderProfile"
  then Some [("main", ExportFunction (fun x => Some (i32_wrap (x * 2))))]
  else None.

Definition demo_host_with (doc : json) : Host :=
  {| readFile := demo_files "graph";
     JSON_parse := fun payload =>
       if String.eqb payload "graph" then Some doc else None;
     path_resolve := join;
     path_dirname := fun _ => "/app";
     instantiate := demo_modules |}.

Definition demo_host : Host :=
  demo_host_with
    (pipeline_doc "nodes/fetchUser.wasm" "nodes/calcDiscount.wasm"
                  "nodes/renderProfile.wasm").

(** The same directory with a description written with the key
    [modulePath] in place of [wasm]. *)
Definition modulePath_doc : json :=
  JObject [("nodes", JArray [
    JObject [("id", JString "fetchUser");
             ("modulePath", JString "nodes/fetchUser.wasm")]])].

Definition modulePath_host : Host := demo_host_with modulePath_doc.

(** Graphs used as concrete inputs below. *)
Definition mk (i : string) (ds : list string) : NodeSpec :=
  {| id := i; wasm := Some (JString (i ++ ".wasm")%string);
     dependsOn := Some ds |}.

Definition diamond : list NodeSpec :=
  [mk "d" ["b"; "c"; "b"]; mk "b" ["a"]; mk "c" ["a"]; mk "a" []].

Definition two_cycle : list NodeSpec :=
  [mk "a" []; mk "b" ["c"; "a"]; mk "c" ["b"]].

Definition dangling : list NodeSpec :=
  [mk "a" []; mk "b" ["a"; "ghost"]].

(** The pipeline with the binary of its second node missing. *)
Definition broken_host : Host :=
  demo_host_with
    (pipeline_doc "nodes/fetchUser.wasm" "nodes/missing.wasm"
                  "nodes/renderProfile.wasm").

Definition dangling_host : Host :=
  demo_host_with
    (JObject [("nodes", JArray [node_object "a" "a.wasm" [];
                                node_object "b" "b.wasm" ["a"; "ghost"]])]).

(** ** topoSort on documents that need not fit [interface NodeSpec]

    [loadGraph] checks that [nodes] is an array and nothing about its
    items, so [topoSort] can be handed any decoded values.  This is the
    function of lines 36-93 again, on such values: ids and dependencies
    are whatever the items hold, and the maps compare them as a JavaScript
    [Map] does. *)

(** The values that a [Map] compares by content.  Objects and arrays are
    compared by reference and are left out. *)
Inductive key : Type :=
| KUndefined
| KNull
| KBool (b : bool)
| KNumber (n : Z)
| KString (s : string).

Definition key_eqb (a b : key) : bool :=
  match a, b with
  | KUndefined, KUndefined => true
  | KNull, KNull => true
  | KBool x, KBool y => Bool.eqb x y
  | KNumber x, KNumber y => Z.eqb x y
  | KString x, KString y => String.eqb x y
  | _, _ => false
  end.

Definition key_of (v : jsval) : option key :=
  match v with
  | None => Some KUndefined
  | Some JNull => Some KNull
  | Some (JBool b) => Some (KBool b)
  | Some (JNumber n) => Some (KNumber n)
  | Some (JString s) => Some (KString s)
  | Some (JArray _) => None
  | Some (JObject _) => None
  end.

(** A [Map] with such keys, in insertion order. *)
Module KeyMap.

Definition t (V : Type) : Type := list (key * V).

Fixpoint get {V : Type} (k : key) (m : t V) : option V :=
  match m with
  | [] => None
  | (k', v) :: m' => if key_eqb k k' then Some v else get k m'
  end.

Definition has {V : Type} (k : key) (m : t V) : bool :=
  match get k m with
  | Some _ => true
  | None => false
  end.

Fixpoint set {V : Type} (k : key) (v : V) (m : t V) : t V :=
  match m with
  | [] => [(k, v)]
  | (k', v') :: m' =>
      if key_eqb k k' then (k', v) :: m' else (k', v') :: set k v m'
  end.

End KeyMap.

(** What [topoSort] does on such a document. *)
Inductive js_error : Type :=
| JsTypeError
    (* a property read on null, or a [dependsOn] that cannot be iterated *)
| JsDuplicateNode (node : key)
    (* runtime.ts:43 *)
| JsUnknownDependency (node dep : key)
    (* runtime.ts:53 *)
| JsNodeMissing (node : key)
    (* runtime.ts:72 *)
| JsNegativeIndegree (node : key)
    (* runtime.ts:79 *)
| JsCyclicGraph
    (* runtime.ts:89 *)
| JsUnmodelled
    (* an id or a dependency that is an object or an array, or a
       [dependsOn] that is a string: not covered *)
| JsOutOfFuel.
    (* the bound of the queue loop, as in [drain] *)

Definition js_result (A : Type) : Type := (A + js_error)%type.

(** [v.name] for a property name that no prototype defines ([id],
    [dependsOn]): a type error on null, the own property of an object,
    [undefined] on anything else. *)
Definition member (name : string) (v : json) : js_result jsval :=
  match v with
  | JNull => inr JsTypeError
  | JObject fields => inl (field name fields)
  | _ => inl None
  end.

(** The values that [for (const dep of v ?? [])] visits. *)
Definition iterate (v : jsval) : js_result (list json) :=
  match v with
  | None => inl []
  | Some JNull => inl []
  | Some (JArray items) => inl items
  | Some (JString _) => inr JsUnmodelled
  | Some _ => inr JsTypeError
  end.

(** [!v] on a value read out of a map of decoded values. *)
Definition falsy (v : json) : bool :=
  match v with
  | JNull => true
  | JBool b => negb b
  | JNumber n => Z.eqb n 0
  | JString s => String.eqb s ""
  | JArray _ => false
  | JObject _ => false
  end.

Record js_tables : Type := {
  js_inDegree : KeyMap.t Z;
  js_adjacency : KeyMap.t (list key);
  js_byId : KeyMap.t json
}.

Definition js_no_tables : js_tables :=
  {| js_inDegree := []; js_adjacency := []; js_byId := [] |}.

(** Lines 41-48. *)
Fixpoint js_index_nodes (nodes : list json) (tb : js_tables)
  : js_result js_tables :=
  match nodes with
  | [] => inl tb
  | node :: rest =>
      match member "id" node with
      | inr e => inr e
      | inl v =>
          match key_of v with
          | None => inr JsUnmodelled
          | Some k =>
              if KeyMap.has k (js_byId tb) then inr (JsDuplicateNode k)
              else js_index_nodes rest
                     {| js_inDegree := KeyMap.set k 0%Z (js_inDegree tb);
                        js_adjacency := KeyMap.set k [] (js_adjacency tb);
                        js_byId := KeyMap.set k node (js_byId tb) |}
          end
      end
  end.

Definition js_degree (k : key) (deg : KeyMap.t Z) : Z :=
  match KeyMap.get k deg with
  | Some d => d
  | None => 0%Z
  end.

Definition js_push_dependent (dep k : key) (adj : KeyMap.t (list key))
  : KeyMap.t (list key) :=
  match KeyMap.get dep adj with
  | Some dependents => KeyMap.set dep (dependents ++ [k]) adj
  | None => adj
  end.

(** Lines 51-57, for the node whose id is [k]. *)
Fixpoint js_link_deps (k : key) (ds : list json) (tb : js_tables)
  : js_result js_tables :=
  match ds with
  | [] => inl tb
  | dep :: ds' =>
      match key_of (Some dep) with
      | None => inr JsUnmodelled
      | Some d =>
          if negb (KeyMap.has d (js_byId tb))
          then inr (JsUnknownDependency k d)
          else js_link_deps k ds'
                 {| js_inDegree :=
                      KeyMap.set k (js_degree k (js_inDegree tb) + 1)%Z
                                 (js_inDegree tb);
                    js_adjacency := js_push_dependent d k (js_adjacency tb);
                    js_byId := js_byId tb |}
      end
  end.

(** Lines 50-58. *)
Fixpoint js_link (nodes : list json) (tb : js_tables) : js_result js_tables :=
  match nodes with
  | [] => inl tb
  | node :: rest =>
      match member "dependsOn" node with
      | inr e => inr e
      | inl v =>
          match iterate v with
          | inr e => inr e
          | inl ds =>
              match member "id" node with
              | inr e => inr e
              | inl idv =>
                  match key_of idv with
                  | None => inr JsUnmodelled
                  | Some k =>
                      match js_link_deps k ds tb with
                      | inr e => inr e
                      | inl tb' => js_link rest tb'
                      end
                  end
              end
          end
      end
  end.

(** Lines 60-65. *)
Fixpoint js_seed (es : list (key * Z)) : list key :=
  match es with
  | [] => []
  | (k, d) :: rest => if (d =? 0)%Z then k :: js_seed rest else js_seed rest
  end.

(** Lines 76-85. *)
Fixpoint js_relax (neighbors : list key) (deg : KeyMap.t Z)
    (queue : list key) : js_result (KeyMap.t Z * list key) :=
  match neighbors with
  | [] => inl (deg, queue)
  | neighbor :: rest =>
      let nextDegree := (js_degree neighbor deg - 1)%Z in
      if (nextDegree <? 0)%Z then inr (JsNegativeIndegree neighbor)
      else js_relax rest (KeyMap.set neighbor nextDegree deg)
                    (if (nextDegree =? 0)%Z then queue ++ [neighbor]
                     else queue)
  end.

Definition js_dependents (k : key) (adj : KeyMap.t (list key)) : list key :=
  match KeyMap.get k adj with
  | Some l => l
  | None => []
  end.

(** Lines 68-86.  The test of line 71 is [!node]: it holds when nothing is
    stored under the id, and also when what is stored is a falsy value. *)
Fixpoint js_drain (fuel : nat) (tb : js_tables) (deg : KeyMap.t Z)
    (queue : list key) (res : list json) : js_result (list json) :=
  match queue with
  | [] => inl res
  | k :: queue' =>
      match fuel with
      | O => inr JsOutOfFuel
      | S fuel' =>
          match KeyMap.get k (js_byId tb) with
          | None => inr (JsNodeMissing k)
          | Some node =>
              if falsy node then inr (JsNodeMissing k)
              else
                match js_relax (js_dependents k (js_adjacency tb)) deg queue'
                with
                | inr e => inr e
                | inl (deg', queue'') =>
                    js_drain fuel' tb deg' queue'' (res ++ [node])
                end
          end
      end
  end.

Definition js_topoSort (nodes : list json) : js_result (list json) :=
  match js_index_nodes nodes js_no_tables with
  | inr e => inr e
  | inl tb0 =>
      match js_link nodes tb0 with
      | inr e => inr e
      | inl tb =>
          match
            js_drain (List.length nodes) tb (js_inDegree tb)
                     (js_seed (js_inDegree tb)) []
          with
          | inr e => inr e
          | inl res =>
              if negb (List.length res =? List.length nodes)%nat
              then inr JsCyclicGraph
              else inl res
          end
      end
  end.

(** The errors of [topoSort] among those of [js_topoSort]. *)
Definition js_of_error (e : error) : js_error :=
  match e with
  | DuplicateNode k => JsDuplicateNode (KString k)
  | UnknownDependency n d => JsUnknownDependency (KString n) (KString d)
  | NodeMissing k => JsNodeMissing (KString k)
  | NegativeIndegree k => JsNegativeIndegree (KString k)
  | CyclicGraph => JsCyclicGraph
  | OutOfFuel => JsOutOfFuel
  | _ => JsTypeError
  end.

(** The maps of [topoSort] seen as maps of [js_topoSort]. *)
Definition lift_map {V W : Type} (f : V -> W) (m : JsMap.t V) : KeyMap.t W :=
  map (fun e => (KString (fst e), f (snd e))) m.

Definition decoded (n : NodeSpec) (v : json) : Prop := asNodeSpec v = Some n.

Definition same_tables (tb : tables) (jtb : js_tables) : Prop :=
  js_inDegree jtb = lift_map (fun d => d) (inDegree tb) /\
  js_adjacency jtb = lift_map (map KString) (adjacency tb) /\
  Forall2 (fun e je => fst je = KString (fst e) /\ decoded (snd e) (snd je))
          (byId tb) (js_byId jtb).

(** The two functions give the same outcome. *)
Definition same_outcome {A B : Type} (R : A -> B -> Prop)
    (r : result A) (jr : js_result B) : Prop :=
  match r, jr with
  | inl a, inl b => R a b
  | inr e, inr je => je = js_of_error e
  | _, _ => False
  end.

(** A description whose only node is the number 0. *)
Definition zero_node_doc : json := JObject [("nodes", JArray [JNumber 0])].

(** The numbers of a state are i32 values. *)
Definition i32_state (state : ExecutionState) : Prop :=
  Forall (fun e => in_i32 (input (snd e)) /\ in_i32 (output (snd e))) state.

(** ** logState *)

(** The line feed of [lines.join('\n')]. *)
Definition LF : string := String (ascii_of_nat 10) EmptyString.

(** [items.join(sep)] on an array of strings. *)
Fixpoint array_join (sep : string) (items : list string) : string :=
  match items with
  | [] => ""
  | x :: rest =>
      match rest with
      | [] => x
      | _ :: _ => (x ++ sep ++ array_join sep rest)%string
      end
  end.

(** A number inside a template literal, for the i32 values that a module
    with the signature [main(i32) -> i32] exchanges with the runtime: such
    a number prints in decimal, with a minus sign when negative.  Outside
    that range the function says nothing about the code (JavaScript turns
    to exponent notation from 10^21 on); the statements that mention the
    printed text assume [i32_state]. *)
Definition number_text (z : Z) : string :=
  NilZero.string_of_int (Z.to_int z).

(** [s || 'none'] on a string: only the empty string is falsy. *)
Definition or_none (s : string) : string :=
  if String.eqb s "" then "none" else s.

(** The line of one entry (lines 156-158). *)
Definition record_line (k : string) (record : ExecutionRecord) : string :=
  (k ++ ": input=" ++ number_text (input record)
     ++ " -> output=" ++ number_text (output record)
     ++ " (deps: " ++ or_none (array_join ", " (dependencies record))
     ++ ")")%string.

(** [Array.from(state.keys()).pop()]: [None] is [undefined]. *)
Definition last_key (state : ExecutionState) : option string :=
  match rev (JsMap.keys state) with
  | [] => None
  | k :: _ => Some k
  end.

(** [state.get('fetchUser')?.output ?? '???'] inside the template. *)
Definition user_text (state : ExecutionState) : string :=
  match JsMap.get "fetchUser" state with
  | Some record => number_text (output record)
  | None => "???"
  end.

(** The array [lines] when [logState] reaches [console.log]; [None] when
    it throws before (the read of [.output] on a missing record, line
    162). *)
Definition logState_lines (state : ExecutionState) : option (list string) :=
  let lines :=
    map (fun e => record_line (fst e) (snd e)) (JsMap.entries state) in
  match last_key state with
  | None => Some lines
  | Some finalNode =>
      if String.eqb finalNode "" then Some lines
      else
        match JsMap.get finalNode state with
        | None => None
        | Some record =>
            Some (lines ++
              [("Final narrative: User " ++ user_text state
                 ++ " receives discount score "
                 ++ number_text (output record) ++ ".")%string])
        end
  end.

(** [logState]: the text handed to [console.log]. *)
Definition logState (state : ExecutionState) : option string :=
  match logState_lines state with
  | Some lines => Some (array_join LF lines)
  | None => None
  end.

(** The closing sentence of the report, for a final record. *)
Definition narrative_line (state : ExecutionState) (final : ExecutionRecord)
  : string :=
  ("Final narrative: User " ++ user_text state
     ++ " receives discount score "
     ++ number_text (output final) ++ ".")%string.

Definition entry_line (e : string * ExecutionRecord) : string :=
  record_line (fst e) (snd e).

(** ** Vocabulary of the further properties of the resolver *)

(** A node without dependencies. *)
Definition is_root (n : NodeSpec) : bool :=
  match deps n with
  | [] => true
  | _ :: _ => false
  end.

(** A walk along [R], latest element first: in [y :: x :: _], [R x y]. *)
Fixpoint rwalk (R : string -> string -> Prop) (w : list string) : Prop :=
  match w with
  | [] => True
  | y :: rest =>
      match rest with
      | [] => True
      | x :: _ => R x y /\ rwalk R rest
      end
  end.

(** Graphs used as concrete inputs to the resolver. *)
Definition twins : list NodeSpec :=
  [mk "a" []; mk "b" ["ghost"]; mk "a" ["b"]].

Definition forest : list NodeSpec :=
  [mk "x" ["r2"]; mk "r1" []; mk "y" ["r1"; "r2"]; mk "r2" []].

(** Tactics for the side conditions of concrete graphs. *)
Ltac concrete_nodup :=
  repeat constructor; simpl; intuition discriminate.

Ltac concrete_closed :=
  let n := fresh "n" in let d := fresh "d" in
  let Hn := fresh "Hn" in let Hd := fresh "Hd" in
  intros n d Hn Hd; simpl in Hn;
  repeat (destruct Hn as [Hn|Hn];
          [subst n; simpl in Hd; simpl; intuition (subst; auto 10)|]);
  contradiction.

(** * Properties *)

(** ** Facts about maps *)

Section JsMapFacts.

Context {V : Type}.
Implicit Types (m : JsMap.t V) (k : string) (v : V).

Lemma get_set_same k v m : JsMap.get k (JsMap.set k v m) = Some v.
Proof.
  induction m as [|[k' v'] m IH]; simpl.
  - now rewrite String.eqb_refl.
  - destruct (String.eqb k k') eqn:E; simpl; rewrite E; auto.
Qed.

Lemma get_set_other k k' v m :
  k <> k' -> JsMap.get k' (JsMap.set k v m) = JsMap.get k' m.
Proof.
  intros Hne. induction m as [|[k0 v0] m IH]; simpl.
  - destruct (String.eqb k' k) eqn:E; auto.
    apply String.eqb_eq in E. congruence.
  - destruct (String.eqb k k0) eqn:E; simpl.
    + apply String.eqb_eq in E. subst k0.
      destruct (String.eqb k' k) eqn:E'; auto.
      apply String.eqb_eq in E'. congruence.
    + now rewrite IH.
Qed.

Lemma get_none_iff k m : JsMap.get k m = None <-> ~ In k (JsMap.keys m).
Proof.
  induction m as [|[k' v'] m IH]; simpl.
  - tauto.
  - destruct (String.eqb k k') eqn:E.
    + apply String.eqb_eq in E. subst. split; [discriminate | tauto].
    + apply String.eqb_neq in E. rewrite IH. split; intuition congruence.
Qed.

Lemma get_some_in_keys k v m : JsMap.get k m = Some v -> In k (JsMap.keys m).
Proof.
  intros H. destruct (in_dec string_dec k (JsMap.keys m)) as [|Hn]; auto.
  apply get_none_iff in Hn. congruence.
Qed.

Lemma has_true_iff k m : JsMap.has k m = true <-> In k (JsMap.keys m).
Proof.
  unfold JsMap.has. destruct (JsMap.get k m) eqn:E.
  - split; auto. intros _. eapply get_some_in_keys; eauto.
  - apply get_none_iff in E. split; [discriminate | tauto].
Qed.

Lemma set_fresh k v m : JsMap.get k m = None -> JsMap.set k v m = m ++ [(k, v)].
Proof.
  induction m as [|[k' v'] m IH]; simpl; auto.
  destruct (String.eqb k k'); [discriminate|].
  intros H. now rewrite IH.
Qed.

Lemma keys_set_present k v m :
  In k (JsMap.keys m) -> JsMap.keys (JsMap.set k v m) = JsMap.keys m.
Proof.
  induction m as [|[k' v'] m IH]; simpl; [tauto|].
  intros H. destruct (String.eqb k k') eqn:E; simpl; auto.
  f_equal. apply IH. destruct H as [H|H]; auto.
  apply String.eqb_neq in E. congruence.
Qed.

Lemma get_app_fresh k m m' :
  JsMap.get k m = None -> JsMap.get k (m ++ m') = JsMap.get k m'.
Proof.
  induction m as [|[k' v'] m IH]; simpl; auto.
  destruct (String.eqb k k'); [discriminate | auto].
Qed.

Lemma get_app_present k v m m' :
  JsMap.get k m = Some v -> JsMap.get k (m ++ m') = Some v.
Proof.
  induction m as [|[k' v'] m IH]; simpl; [discriminate|].
  destruct (String.eqb k k'); auto.
Qed.

End JsMapFacts.

(** ** Counting *)

Lemma mem_true_iff k l : mem k l = true <-> In k l.
Proof.
  unfold mem. rewrite existsb_exists. split.
  - intros [x [Hin Hx]]. apply String.eqb_eq in Hx. now subst.
  - intros H. exists k. split; auto. apply String.eqb_refl.
Qed.

Lemma mem_false_iff k l : mem k l = false <-> ~ In k l.
Proof.
  rewrite <- mem_true_iff. destruct (mem k l); split; congruence.
Qed.

Lemma mem_snoc k d l : mem k (l ++ [d]) = mem k l || String.eqb k d.
Proof.
  unfold mem. rewrite existsb_app. simpl. now rewrite orb_false_r.
Qed.

Lemma pending_snoc E done d k :
  ~ In d done ->
  pending E (done ++ [d]) k + multiplicity E k d = pending E done k.
Proof.
  intros Hd. unfold pending, multiplicity, cnt.
  induction E as [|[a b] E IH]; simpl; auto.
  rewrite mem_snoc.
  destruct (String.eqb a k); simpl; auto.
  destruct (String.eqb b d) eqn:Ebd.
  - apply String.eqb_eq in Ebd. subst b.
    apply mem_false_iff in Hd. rewrite Hd. simpl. lia.
  - rewrite orb_false_r. destruct (mem b done); simpl; lia.
Qed.

Lemma count_adj_of E d k :
  count_occ string_dec (adj_of E d) k = multiplicity E k d.
Proof.
  unfold adj_of, multiplicity, cnt.
  induction E as [|[a b] E IH]; simpl; auto.
  destruct (String.eqb b d); simpl.
  - destruct (string_dec a k) as [->|Hne].
    + rewrite String.eqb_refl. simpl. now rewrite IH.
    + apply String.eqb_neq in Hne. now rewrite Hne.
  - now rewrite andb_false_r.
Qed.

Lemma pending_zero E done k :
  pending E done k = 0 -> forall d, In (k, d) E -> In d done.
Proof.
  unfold pending, cnt. intros H d Hin.
  destruct (mem d done) eqn:Em; [now apply mem_true_iff|].
  assert (Hf :
    In (k, d)
       (filter (fun e => String.eqb (fst e) k && negb (mem (snd e) done))
               E)).
  { apply filter_In. split; auto. simpl. now rewrite String.eqb_refl, Em. }
  destruct (filter _ E); [contradiction | discriminate].
Qed.

Lemma in_adj_of E d x : In x (adj_of E d) -> In (x, d) E.
Proof.
  unfold adj_of. rewrite in_map_iff. intros [[a b] [Hx Hin]].
  apply filter_In in Hin. destruct Hin as [Hin Hb]. simpl in *.
  apply String.eqb_eq in Hb. now subst.
Qed.

Lemma in_edges nodes a b :
  In (a, b) (edges nodes) <-> exists n, In n nodes /\ id n = a /\ In b (deps n).
Proof.
  unfold edges. rewrite in_flat_map. split.
  - intros [n [Hn Hin]]. apply in_map_iff in Hin.
    destruct Hin as [d [Heq Hd]]. inversion Heq; subst. eauto.
  - intros [n [Hn [Ha Hb]]]. exists n. split; auto.
    apply in_map_iff. exists b. subst. auto.
Qed.

(** ** The first loop: registration *)

Lemma NoDup_snoc {A : Type} (l : list A) (x : A) :
  NoDup l -> ~ In x l -> NoDup (l ++ [x]).
Proof.
  intros Hl Hx. apply NoDup_app.
  - assumption.
  - repeat constructor. simpl. tauto.
  - intros y Hy [<-|[]]. contradiction.
Qed.

Lemma index_nodes_inl nodes : forall tb tb',
  index_nodes nodes tb = inl tb' ->
  NoDup (JsMap.keys (byId tb)) ->
  NoDup (JsMap.keys (byId tb) ++ ids nodes).
Proof.
  induction nodes as [|node rest IH]; intros tb tb' H Hnd; simpl in *.
  - now rewrite app_nil_r.
  - destruct (JsMap.has (id node) (byId tb)) eqn:Eh; [discriminate|].
    assert (Hfresh : JsMap.get (id node) (byId tb) = None).
    { unfold JsMap.has in Eh. destruct (JsMap.get _ _); congruence. }
    apply IH in H; simpl in *.
    + rewrite set_fresh in H by assumption.
      unfold JsMap.keys in *. rewrite map_app in H. simpl in H.
      now rewrite <- app_assoc in H.
    + rewrite set_fresh by assumption.
      unfold JsMap.keys. rewrite map_app. simpl.
      apply NoDup_snoc; auto. now apply get_none_iff.
Qed.

Lemma index_nodes_inr nodes : forall tb e,
  index_nodes nodes tb = inr e -> exists k, e = DuplicateNode k.
Proof.
  induction nodes as [|node rest IH]; intros tb e H; simpl in *.
  - discriminate.
  - destruct (JsMap.has (id node) (byId tb)).
    + inversion H. eauto.
    + eauto.
Qed.

Lemma keys_map_id {V : Type} (f : NodeSpec -> V) nodes :
  JsMap.keys (map (fun n => (id n, f n)) nodes) = ids nodes.
Proof. unfold JsMap.keys, ids. rewrite map_map. reflexivity. Qed.

Lemma index_nodes_closed_form rest : forall seen,
  NoDup (ids (seen ++ rest)) ->
  index_nodes rest (registered seen) = inl (registered (seen ++ rest)).
Proof.
  induction rest as [|node rest IH]; intros seen Hnd; simpl.
  - now rewrite app_nil_r.
  - assert (Hfresh : ~ In (id node) (ids seen)).
    { unfold ids in Hnd. rewrite map_app in Hnd. simpl in Hnd.
      apply NoDup_remove_2 in Hnd. intros Hin. apply Hnd.
      apply in_or_app. now left. }
    assert (Hget : forall (V : Type) (f : NodeSpec -> V),
      JsMap.get (id node) (map (fun n => (id n, f n)) seen) = None).
    { intros V f. apply get_none_iff. now rewrite keys_map_id. }
    unfold JsMap.has. rewrite (Hget _ (fun n => n)).
    rewrite !set_fresh by apply Hget.
    replace (seen ++ node :: rest) with ((seen ++ [node]) ++ rest) in *
      by now rewrite <- app_assoc.
    rewrite <- IH by assumption. f_equal.
    unfold registered. now rewrite !map_app.
Qed.

Lemma get_byId_registered nodes n :
  NoDup (ids nodes) -> In n nodes ->
  JsMap.get (id n) (map (fun n => (id n, n)) nodes) = Some n.
Proof.
  induction nodes as [|m nodes IH]; simpl; [tauto|].
  intros Hnd [->|Hin].
  - now rewrite String.eqb_refl.
  - inversion Hnd as [|? ? Hm Hnd']; subst.
    destruct (String.eqb (id n) (id m)) eqn:E; auto.
    apply String.eqb_eq in E. exfalso. apply Hm. rewrite <- E.
    now apply in_map.
Qed.

(** ** The second loop: in-degrees and adjacency *)

Lemma linked_registered nodes : linked nodes [] (registered nodes).
Proof.
  unfold linked, registered; simpl. repeat split.
  - apply (keys_map_id (fun _ => 0%Z)).
  - intros k Hk. induction nodes as [|n nodes IH]; simpl in *; [tauto|].
    destruct (String.eqb k (id n)) eqn:E; auto.
    apply String.eqb_neq in E. destruct Hk; [congruence | auto].
  - intros k Hk. induction nodes as [|n nodes IH]; simpl in *; [tauto|].
    destruct (String.eqb k (id n)) eqn:E; auto.
    apply String.eqb_neq in E. destruct Hk; [congruence | auto].
Qed.

Lemma pending_snoc_edge E a b k :
  pending (E ++ [(a, b)]) [] k =
  pending E [] k + (if String.eqb a k then 1 else 0).
Proof.
  unfold pending, cnt. rewrite filter_app, length_app. simpl.
  destruct (String.eqb a k); reflexivity.
Qed.

Lemma adj_of_snoc_edge E a b k :
  adj_of (E ++ [(a, b)]) k =
  adj_of E k ++ (if String.eqb b k then [a] else []).
Proof.
  unfold adj_of. rewrite filter_app, map_app. simpl.
  destruct (String.eqb b k); reflexivity.
Qed.

Lemma link_deps_spec nodes node : In (id node) (ids nodes) ->
  forall ds E tb, linked nodes E tb ->
  match link_deps node ds tb with
  | inl tb' =>
      linked nodes (E ++ map (fun d => (id node, d)) ds) tb' /\
      incl ds (ids nodes)
  | inr e =>
      exists d, In d ds /\ ~ In d (ids nodes) /\
                e = UnknownDependency (id node) d
  end.
Proof.
  intros Hnode. induction ds as [|dep ds IH]; intros E tb HL; simpl.
  - rewrite app_nil_r. split; [assumption | intros x []].
  - destruct HL as (Hby & Hkeys & Hdeg & Hadj).
    destruct (JsMap.has dep (byId tb)) eqn:Eh; simpl.
    + assert (Hdep : In dep (ids nodes)).
      { apply has_true_iff in Eh. rewrite Hby in Eh.
        now rewrite (keys_map_id (fun n => n)) in Eh. }
      match goal with |- match link_deps node ds ?t with _ => _ end =>
        specialize (IH (E ++ [(id node, dep)]) t) end.
      rewrite <- app_assoc in IH. simpl in IH.
      match type of IH with ?P -> _ => assert (HL' : P) end.
      { unfold linked; simpl. repeat split.
        - assumption.
        - rewrite keys_set_present; [assumption | now rewrite Hkeys].
        - intros k Hk. rewrite pending_snoc_edge.
          unfold degree. rewrite (Hdeg _ Hnode).
          destruct (String.eqb (id node) k) eqn:Ek.
          + apply String.eqb_eq in Ek. subst k. rewrite get_set_same.
            f_equal. lia.
          + apply String.eqb_neq in Ek. rewrite get_set_other by assumption.
            rewrite Hdeg by assumption. f_equal. lia.
        - intros k Hk. rewrite adj_of_snoc_edge.
          unfold push_dependent. rewrite (Hadj _ Hdep).
          destruct (String.eqb dep k) eqn:Ek.
          + apply String.eqb_eq in Ek. subst k. now rewrite get_set_same.
          + apply String.eqb_neq in Ek. rewrite get_set_other by assumption.
            rewrite app_nil_r. now apply Hadj. }
      specialize (IH HL').
      destruct (link_deps node ds _) as [tb'|e].
      * destruct IH as [IH1 IH2]. split; auto.
        intros x [<-|Hx]; auto.
      * destruct IH as [d (Hd & Hn & ->)]. exists d. simpl. auto.
    + exists dep. repeat split; auto.
      intros Hin. apply Bool.not_true_iff_false in Eh. apply Eh.
      apply has_true_iff. rewrite Hby.
      now rewrite (keys_map_id (fun n => n)).
Qed.

Lemma link_spec nodes : forall rest E tb,
  incl rest nodes -> linked nodes E tb ->
  match link rest tb with
  | inl tb' =>
      linked nodes (E ++ edges rest) tb' /\
      (forall n d, In n rest -> In d (deps n) -> In d (ids nodes))
  | inr e =>
      exists n d, In n rest /\ In d (deps n) /\ ~ In d (ids nodes) /\
                  e = UnknownDependency (id n) d
  end.
Proof.
  induction rest as [|node rest IH]; intros E tb Hincl HL; simpl.
  - rewrite app_nil_r. split; [assumption | intros n d []].
  - assert (Hnode : In (id node) (ids nodes)).
    { apply in_map, Hincl. now left. }
    pose proof (link_deps_spec nodes node Hnode (deps node) E tb HL) as HD.
    destruct (link_deps node (deps node) tb) as [tb1|e].
    + destruct HD as [HL1 Hds].
      assert (Hincl' : incl rest nodes).
      { intros x Hx. apply Hincl. now right. }
      specialize (IH _ _ Hincl' HL1).
      destruct (link rest tb1) as [tb'|e].
      * destruct IH as [HL' Hrest]. split.
        -- unfold edges in *. simpl. now rewrite app_assoc.
        -- intros n d [<-|Hn] Hd; eauto.
      * destruct IH as (n & d & Hn & Hd & Hnot & ->).
        exists n, d. simpl. auto.
    + destruct HD as (d & Hd & Hnot & ->). exists node, d. simpl. auto.
Qed.

(** ** The queue loop *)

Section Kahn.

Variable nodes : list NodeSpec.
Variable tb : tables.

Hypothesis ids_unique : NoDup (ids nodes).
Hypothesis tables_linked : linked nodes (edges nodes) tb.

Lemma edge_source a b : In (a, b) (edges nodes) -> In a (ids nodes).
Proof.
  intros H. apply in_edges in H. destruct H as (n & Hn & <- & _).
  now apply in_map.
Qed.

Lemma multiplicity_le_pending done k d :
  ~ In d done -> multiplicity (edges nodes) k d <= pending (edges nodes) done k.
Proof. intros H. pose proof (pending_snoc (edges nodes) done d k H). lia. Qed.

Lemma relax_spec done d : ~ In d done ->
  forall post pre deg queue,
    pre ++ post = adj_of (edges nodes) d ->
    relax_inv nodes (edges nodes) done d pre deg queue ->
    exists deg' queue',
      relax post deg queue = inl (deg', queue') /\
      relax_inv nodes (edges nodes) done d (adj_of (edges nodes) d) deg' queue'.
Proof.
  intros Hd. induction post as [|x post IH]; intros pre deg queue Hsplit HJ.
  - rewrite app_nil_r in Hsplit. subst pre. simpl. eauto.
  - simpl.
    destruct HJ as (Hnd & Hincl & Hdeg & Hzero).
    assert (Hx : In x (ids nodes)).
    { apply (edge_source x d), in_adj_of. rewrite <- Hsplit.
      apply in_or_app. right. now left. }
    assert (Hcount :
      count_occ string_dec pre x + 1 <= pending (edges nodes) done x).
    { pose proof (multiplicity_le_pending done x d Hd) as Hle.
      rewrite <- count_adj_of, <- Hsplit in Hle.
      rewrite count_occ_app, count_occ_cons_eq in Hle by reflexivity. lia. }
    pose proof (Hdeg x Hx) as Hgx.
    unfold degree. rewrite Hgx.
    destruct (Z.ltb_spec
                (Z.of_nat (pending (edges nodes) done x)
                 - Z.of_nat (count_occ string_dec pre x) - 1) 0) as [Hneg|_];
      [lia|].
    assert (Hx_new : ~ In x (done ++ d :: queue)).
    { intros Hin. apply Hzero in Hin. rewrite Hgx in Hin.
      inversion Hin. lia. }
    apply (IH (pre ++ [x])).
    + now rewrite <- app_assoc.
    + assert (Hdeg' : forall k, In k (ids nodes) ->
        JsMap.get k
          (JsMap.set x (Z.of_nat (pending (edges nodes) done x)
                        - Z.of_nat (count_occ string_dec pre x) - 1)%Z deg) =
        Some (Z.of_nat (pending (edges nodes) done k)
              - Z.of_nat (count_occ string_dec (pre ++ [x]) k))%Z).
      { intros k Hk. rewrite count_occ_app. simpl.
        destruct (string_dec x k) as [->|Hne].
        - rewrite get_set_same. f_equal. lia.
        - rewrite get_set_other by assumption. rewrite Hdeg by assumption.
          f_equal. lia. }
      destruct (Z.eqb_spec
                  (Z.of_nat (pending (edges nodes) done x)
                   - Z.of_nat (count_occ string_dec pre x) - 1) 0) as [Hz|Hnz].
      * repeat split.
        -- replace (done ++ d :: queue ++ [x])
             with ((done ++ d :: queue) ++ [x])
             by now rewrite <- app_assoc.
           now apply NoDup_snoc.
        -- intros y Hy.
           replace (done ++ d :: queue ++ [x])
             with ((done ++ d :: queue) ++ [x]) in Hy
             by now rewrite <- app_assoc.
           apply in_app_or in Hy. destruct Hy as [Hy|[<-|[]]]; auto.
        -- assumption.
        -- intros y Hy.
           replace (done ++ d :: queue ++ [x])
             with ((done ++ d :: queue) ++ [x]) in Hy
             by now rewrite <- app_assoc.
           apply in_app_or in Hy. destruct Hy as [Hy|[<-|[]]].
           ++ rewrite get_set_other; [now apply Hzero|].
              intros ->. contradiction.
           ++ rewrite get_set_same. now rewrite Hz.
      * repeat split; auto.
        intros y Hy. rewrite get_set_other; [now apply Hzero|].
        intros ->. contradiction.
Qed.

Lemma deps_before_snoc res N :
  deps_before res ->
  (forall D, In D (deps N) -> exists M, In M res /\ id M = D) ->
  deps_before (res ++ [N]).
Proof.
  intros Hres HN l1 N' l2 Heq D HD.
  induction l2 as [|z l2' _] using rev_ind.
  - apply app_inj_tail in Heq. destruct Heq as [-> ->]. auto.
  - change (l1 ++ N' :: l2' ++ [z]) with (l1 ++ (N' :: l2') ++ [z]) in Heq.
    rewrite app_assoc in Heq. apply app_inj_tail in Heq.
    destruct Heq as [-> _]. eapply Hres; eauto.
Qed.

Lemma ids_snoc res node : ids (res ++ [node]) = ids res ++ [id node].
Proof. unfold ids. now rewrite map_app. Qed.

Lemma drain_spec : forall fuel deg queue res,
  drain_inv nodes (edges nodes) deg queue res ->
  List.length nodes <= List.length res + fuel ->
  exists res',
    drain fuel tb deg queue res = inl res' /\
    incl res' nodes /\ NoDup (ids res') /\ deps_before res'.
Proof.
  induction fuel as [|fuel IH]; intros deg queue res HI Hfuel;
    destruct HI as (Hres & Hnd & Hincl & Hdeg & Hzero & Hord);
    destruct queue as [|k queue]; simpl.
  - rewrite app_nil_r in Hnd. eauto.
  - exfalso. pose proof (NoDup_incl_length Hnd Hincl) as Hlen.
    rewrite length_app in Hlen. unfold ids in Hlen.
    rewrite !length_map in Hlen. simpl in Hlen. lia.
  - rewrite app_nil_r in Hnd. eauto.
  - assert (Hk : In k (ids nodes)).
    { apply Hincl, in_or_app. right. now left. }
    assert (Hfresh : ~ In k (ids res)).
    { intros Hin. apply NoDup_remove_2 in Hnd. apply Hnd.
      apply in_or_app. now left. }
    destruct tables_linked as (Hby & _ & _ & Hadj).
    pose proof Hk as Hk'. unfold ids in Hk'. apply in_map_iff in Hk'.
    destruct Hk' as (node & Hid & Hnode). subst k.
    rewrite Hby, (get_byId_registered nodes node ids_unique Hnode).
    unfold dependents. rewrite (Hadj _ Hk).
    destruct (relax_spec (ids res) (id node) Hfresh
                (adj_of (edges nodes) (id node)) [] deg queue eq_refl)
      as (deg' & queue' & Hrelax & HJ).
    { repeat split; auto.
      intros k Hk0. rewrite (Hdeg k Hk0). simpl. f_equal. lia. }
    rewrite Hrelax.
    destruct HJ as (Hnd' & Hincl' & Hdeg' & Hzero').
    apply IH.
    + repeat split.
      * intros x Hx. apply in_app_or in Hx.
        destruct Hx as [Hx|[<-|[]]]; auto.
      * rewrite ids_snoc, <- app_assoc. exact Hnd'.
      * rewrite ids_snoc, <- app_assoc. exact Hincl'.
      * intros k Hk0. rewrite (Hdeg' k Hk0), ids_snoc, count_adj_of.
        pose proof (pending_snoc (edges nodes) (ids res) (id node) k Hfresh).
        f_equal. lia.
      * intros x Hx. apply Hzero'.
        now rewrite ids_snoc, <- app_assoc in Hx.
      * apply deps_before_snoc; auto.
        intros D HD.
        assert (Hp : pending (edges nodes) (ids res) (id node) = 0).
        { assert (Hz : JsMap.get (id node) deg = Some 0%Z).
          { apply Hzero, in_or_app. right. now left. }
          rewrite (Hdeg _ Hk) in Hz. inversion Hz. lia. }
        assert (HinD : In D (ids res)).
        { apply (pending_zero (edges nodes) _ _ Hp). apply in_edges. eauto. }
        unfold ids in HinD. apply in_map_iff in HinD.
        destruct HinD as (M & HM & HinM). eauto.
    + rewrite length_app. simpl. lia.
Qed.

End Kahn.

(** ** The queue is seeded with the roots *)

Lemma seed_in es k : In k (seed es) -> In (k, 0%Z) es.
Proof.
  induction es as [|[k' d] es IH]; simpl; [tauto|].
  destruct (Z.eqb_spec d 0) as [->|_]; simpl; intuition congruence.
Qed.

Lemma seed_NoDup es : NoDup (map fst es) -> NoDup (seed es).
Proof.
  induction es as [|[k d] es IH]; simpl; intros H; [constructor|].
  inversion H as [|? ? Hk Hrest]; subst.
  destruct (d =? 0)%Z; auto. constructor; auto.
  intros Hin. apply Hk. apply seed_in in Hin.
  change k with (fst (k, 0%Z)). now apply in_map.
Qed.

Lemma get_in_nodup {V : Type} (m : JsMap.t V) k v :
  NoDup (JsMap.keys m) -> In (k, v) m -> JsMap.get k m = Some v.
Proof.
  induction m as [|[k' v'] m IH]; simpl; [tauto|].
  intros Hnd [Heq|Hin].
  - inversion Heq; subst. now rewrite String.eqb_refl.
  - inversion Hnd as [|? ? Hk Hrest]; subst.
    destruct (String.eqb k k') eqn:Ek; auto.
    apply String.eqb_eq in Ek. subst k'. exfalso. apply Hk.
    change k with (fst (k, v)). now apply in_map.
Qed.

Lemma drain_inv_initial nodes tb :
  NoDup (ids nodes) -> linked nodes (edges nodes) tb ->
  drain_inv nodes (edges nodes) (inDegree tb)
            (seed (JsMap.entries (inDegree tb))) [].
Proof.
  intros Hnd (Hby & Hkeys & Hdeg & Hadj).
  assert (Hk : NoDup (JsMap.keys (inDegree tb))) by now rewrite Hkeys.
  unfold drain_inv, JsMap.entries; simpl. repeat split.
  - intros x [].
  - now apply seed_NoDup.
  - intros k Hin. apply seed_in in Hin. rewrite <- Hkeys.
    change k with (fst (k, 0%Z)). now apply in_map.
  - assumption.
  - intros k Hin. apply seed_in in Hin. now apply get_in_nodup.
  - intros l1 N l2 Heq. destruct l1; discriminate.
Qed.

(** ** What [topoSort] returns *)

Lemma topoSort_link nodes :
  NoDup (ids nodes) ->
  topoSort nodes =
  match link nodes (registered nodes) with
  | inr e => inr e
  | inl tb =>
      match
        drain (List.length nodes) tb (inDegree tb)
              (seed (JsMap.entries (inDegree tb))) []
      with
      | inr e => inr e
      | inl res =>
          if negb (List.length res =? List.length nodes)%nat
          then inr CyclicGraph else inl res
      end
  end.
Proof.
  intros Hnd. unfold topoSort.
  change no_tables with (registered []).
  now rewrite (index_nodes_closed_form nodes []).
Qed.

Lemma topoSort_inl nodes res :
  topoSort nodes = inl res -> NoDup (ids nodes) /\ deps_closed nodes.
Proof.
  intros H.
  assert (Hnd : NoDup (ids nodes)).
  { unfold topoSort in H.
    destruct (index_nodes nodes no_tables) as [tb0|] eqn:E0; [|discriminate].
    apply index_nodes_inl in E0; [exact E0 | constructor]. }
  split; auto.
  rewrite (topoSort_link nodes Hnd) in H.
  pose proof (link_spec nodes nodes [] (registered nodes)
                (incl_refl _) (linked_registered nodes)) as HL.
  destruct (link nodes (registered nodes)) as [tb|e]; [|discriminate].
  destruct HL as [_ Hclosed]. exact Hclosed.
Qed.

Lemma topoSort_unknown nodes :
  NoDup (ids nodes) -> ~ deps_closed nodes ->
  exists n d, In n nodes /\ In d (deps n) /\ ~ In d (ids nodes) /\
              topoSort nodes = inr (UnknownDependency (id n) d).
Proof.
  intros Hnd Hopen. rewrite (topoSort_link nodes Hnd).
  pose proof (link_spec nodes nodes [] (registered nodes)
                (incl_refl _) (linked_registered nodes)) as HL.
  destruct (link nodes (registered nodes)) as [tb|e].
  - destruct HL as [_ Hclosed]. contradiction.
  - destruct HL as (n & d & Hn & Hd & Hnot & ->). exists n, d. auto.
Qed.

Lemma topoSort_cases nodes :
  NoDup (ids nodes) -> deps_closed nodes ->
  (exists res, topoSort nodes = inl res /\
               Permutation nodes res /\ deps_before res)
  \/ topoSort nodes = inr CyclicGraph.
Proof.
  intros Hnd Hclosed. rewrite (topoSort_link nodes Hnd).
  pose proof (link_spec nodes nodes [] (registered nodes)
                (incl_refl _) (linked_registered nodes)) as HL.
  destruct (link nodes (registered nodes)) as [tb|e].
  - destruct HL as [HL _]. simpl in HL.
    destruct (drain_spec nodes tb Hnd HL (List.length nodes) (inDegree tb)
                (seed (JsMap.entries (inDegree tb))) [])
      as (res & Hdrain & Hincl & Hres_nd & Hord).
    + now apply drain_inv_initial.
    + simpl. lia.
    + rewrite Hdrain.
      destruct (Nat.eqb_spec (List.length res) (List.length nodes))
        as [Hlen|Hlen]; simpl; [left | now right].
      exists res. repeat split; auto.
      apply Permutation_sym. apply NoDup_Permutation_bis; auto.
      * eapply NoDup_map_inv. exact Hres_nd.
      * lia.
  - destruct HL as (n & d & Hn & Hd & Hnot & _). exfalso.
    apply Hnot. eapply Hclosed; eauto.
Qed.

Lemma topoSort_errors nodes e :
  topoSort nodes = inr e ->
  (exists k, e = DuplicateNode k) \/
  (exists n d, e = UnknownDependency n d) \/
  e = CyclicGraph.
Proof.
  intros H.
  destruct (index_nodes nodes no_tables) as [tb0|e0] eqn:E0.
  - apply index_nodes_inl in E0; [|constructor]. simpl in E0.
    rewrite (topoSort_link nodes E0) in H.
    pose proof (link_spec nodes nodes [] (registered nodes)
                  (incl_refl _) (linked_registered nodes)) as HL.
    destruct (link nodes (registered nodes)) as [tb|e1] eqn:E1.
    + destruct HL as [_ Hclosed].
      destruct (topoSort_cases nodes E0 Hclosed) as [(res & Hres & _)|Hc];
        rewrite (topoSort_link nodes E0), E1 in *; rewrite H in *.
      * discriminate.
      * inversion Hc. auto.
    + destruct HL as (n & d & _ & _ & _ & ->). inversion H. eauto.
  - unfold topoSort in H. rewrite E0 in H. inversion H; subst.
    left. eapply index_nodes_inr; eauto.
Qed.

(** The bound given to the queue loop is never reached. *)
Lemma topoSort_never_out_of_fuel nodes : topoSort nodes <> inr OutOfFuel.
Proof.
  intros H. apply topoSort_errors in H.
  destruct H as [[k H]|[(n & d & H)|H]]; discriminate.
Qed.

(** ** A topological order excludes cycles *)

Lemma node_of_id res n N :
  NoDup (ids res) -> In n res -> In N res -> id n = id N -> n = N.
Proof.
  induction res as [|m res IH]; simpl; [tauto|].
  intros Hnd Hn HN Heq. inversion Hnd as [|? ? Hm Hrest]; subst.
  destruct Hn as [->|Hn], HN as [->|HN]; auto.
  - exfalso. apply Hm. rewrite Heq. now apply in_map.
  - exfalso. apply Hm. rewrite <- Heq. now apply in_map.
Qed.

Lemma reach_before nodes res :
  NoDup (ids res) -> deps_before res -> incl nodes res ->
  forall a b, clos_trans_1n string (depends_on nodes) a b ->
  forall l1 N l2, res = l1 ++ N :: l2 -> id N = a -> In b (ids l1).
Proof.
  intros Hnd Hord Hincl a b Hab.
  assert (Hstep : forall a y l1 N l2,
            depends_on nodes a y -> res = l1 ++ N :: l2 -> id N = a ->
            exists M, In M l1 /\ id M = y).
  { intros a0 y l1 N l2 (n & Hn & Hid & Hy) Heq HN.
    assert (n = N) as ->.
    { apply (node_of_id res); auto.
      - rewrite Heq. apply in_or_app. right. now left.
      - congruence. }
    eapply Hord; eauto. }
  induction Hab as [a b Hab | a y b Hay Hyb IH]; intros l1 N l2 Heq HN.
  - destruct (Hstep _ _ _ _ _ Hab Heq HN) as (M & HM & <-).
    now apply in_map.
  - destruct (Hstep _ _ _ _ _ Hay Heq HN) as (M & HM & HidM).
    apply in_split in HM. destruct HM as (la & lb & ->).
    specialize (IH la M (lb ++ N :: l2)).
    rewrite <- app_assoc in Heq. simpl in Heq.
    specialize (IH Heq HidM).
    unfold ids in *. rewrite map_app. apply in_or_app. now left.
Qed.

Lemma ordered_acyclic nodes res :
  Permutation nodes res -> NoDup (ids nodes) -> deps_before res ->
  ~ has_cycle nodes.
Proof.
  intros Hperm Hnd Hord [a Hcycle].
  assert (Hnd' : NoDup (ids res)).
  { eapply Permutation_NoDup; [|exact Hnd]. now apply Permutation_map. }
  assert (Hincl : incl nodes res).
  { intros x Hx. eapply Permutation_in; eauto. }
  apply clos_trans_t1n in Hcycle.
  assert (Ha : exists n, In n res /\ id n = a).
  { assert (Hfirst : exists y, depends_on nodes a y).
    { inversion Hcycle; eauto. }
    destruct Hfirst as (y & n & Hn & Hid & _). exists n. auto. }
  destruct Ha as (N & HN & HidN).
  apply in_split in HN. destruct HN as (l1 & l2 & Heq).
  pose proof (reach_before nodes res Hnd' Hord Hincl a a Hcycle
                l1 N l2 Heq HidN) as Hin.
  rewrite Heq in Hnd'. unfold ids in Hnd'. rewrite map_app in Hnd'.
  simpl in Hnd'. apply NoDup_remove_2 in Hnd'. apply Hnd'.
  apply in_or_app. left. now rewrite HidN.
Qed.

Lemma topoSort_sound nodes res :
  topoSort nodes = inl res -> Permutation nodes res /\ deps_before res.
Proof.
  intros H. destruct (topoSort_inl nodes res H) as [Hnd Hclosed].
  destruct (topoSort_cases nodes Hnd Hclosed) as [(res' & Hres & Hp & Ho)|Hc].
  - rewrite H in Hres. inversion Hres; subst. auto.
  - rewrite H in Hc. discriminate.
Qed.

(** ** Claims about the resolver *)

(** C1. Whenever [topoSort] returns, what it returns is a permutation of
    its argument in which every id listed in a node's [dependsOn] is the id
    of a node that stands strictly before that node. *)
Theorem topoSort_is_topological_order (nodes res : list NodeSpec) :
  topoSort nodes = inl res ->
  Permutation nodes res /\ deps_before res.
Proof. exact (topoSort_sound nodes res). Qed.

Lemma topoSort_is_topological_order_witness :
  topoSort diamond =
    inl [mk "a" []; mk "b" ["a"]; mk "c" ["a"]; mk "d" ["b"; "c"; "b"]] /\
  (Permutation diamond
     [mk "a" []; mk "b" ["a"]; mk "c" ["a"]; mk "d" ["b"; "c"; "b"]] /\
   deps_before
     [mk "a" []; mk "b" ["a"]; mk "c" ["a"]; mk "d" ["b"; "c"; "b"]]).
Proof.
  split; [reflexivity|].
  apply (topoSort_is_topological_order diamond). reflexivity.
Defined.

(** C4. On a graph with unique ids and no dangling dependency, a cycle in
    the dependency relation (a self-loop included) makes [topoSort] throw
    the cycle error: no sequence is returned. *)
Theorem topoSort_rejects_cycles (nodes : list NodeSpec) :
  NoDup (ids nodes) -> deps_closed nodes -> has_cycle nodes ->
  topoSort nodes = inr CyclicGraph.
Proof.
  intros Hnd Hclosed Hcycle.
  destruct (topoSort_cases nodes Hnd Hclosed) as [(res & _ & Hp & Ho)|Hc]; auto.
  exfalso. eapply ordered_acyclic; eauto.
Qed.

Lemma topoSort_rejects_cycles_witness :
  NoDup (ids two_cycle) /\ deps_closed two_cycle /\ has_cycle two_cycle /\
  topoSort two_cycle = inr CyclicGraph.
Proof.
  assert (Hnd : NoDup (ids two_cycle)) by concrete_nodup.
  assert (Hclosed : deps_closed two_cycle) by concrete_closed.
  assert (Hcycle : has_cycle two_cycle).
  { exists "b". apply t_trans with "c"; apply t_step.
    - exists (mk "b" ["c"; "a"]). simpl. auto.
    - exists (mk "c" ["b"]). simpl. auto. }
  split; [exact Hnd | split; [exact Hclosed | split; [exact Hcycle |]]].
  exact (topoSort_rejects_cycles two_cycle Hnd Hclosed Hcycle).
Defined.

(** A node that lists itself is a cycle of length one. *)
Example self_loop_rejected :
  topoSort [mk "a" []; mk "b" ["a"; "b"]] = inr CyclicGraph.
Proof. reflexivity. Qed.

(** ** Claims about the input policy *)

Lemma last_index {A : Type} (l : list A) (x : A) :
  nth_error (l ++ [x]) (List.length (l ++ [x]) - 1) = Some x.
Proof.
  rewrite length_app. simpl.
  replace (List.length l + 1 - 1) with (List.length l) by lia.
  rewrite nth_error_app2 by lia. now rewrite Nat.sub_diag.
Qed.

Lemma resolveInput_last node state others lastDep :
  deps node = others ++ [lastDep] ->
  resolveInput node state =
  match JsMap.get lastDep state with
  | Some record => inl (output record)
  | None => inr (MissingUpstreamState lastDep)
  end.
Proof.
  intros Hd. unfold resolveInput. rewrite Hd, last_index.
  rewrite length_app. simpl.
  replace (List.length others + 1 =? 0)%nat with false; [reflexivity|].
  symmetry. apply Nat.eqb_neq. lia.
Qed.

(** C2. [resolveInput] returns 0 for a node without dependencies.  For a
    node whose [dependsOn] ends in [lastDep] it returns the output recorded
    for [lastDep], whatever the state holds for the other dependencies (two
    states that agree on [lastDep] give the same result); when nothing is
    recorded for [lastDep] it throws the missing-state error. *)
Theorem resolveInput_last_dependency_only
    (node : NodeSpec) (state : ExecutionState) :
  (deps node = [] -> resolveInput node state = inl 0%Z) /\
  (forall others lastDep, deps node = others ++ [lastDep] ->
     (forall record, JsMap.get lastDep state = Some record ->
        resolveInput node state = inl (output record)) /\
     (JsMap.get lastDep state = None ->
        resolveInput node state = inr (MissingUpstreamState lastDep)) /\
     (forall state' : ExecutionState,
        JsMap.get lastDep state' = JsMap.get lastDep state ->
        resolveInput node state' = resolveInput node state)).
Proof.
  split.
  - intros Hd. unfold resolveInput. now rewrite Hd.
  - intros others lastDep Hd. repeat split.
    + intros record Hr. rewrite (resolveInput_last _ _ _ _ Hd). now rewrite Hr.
    + intros Hr. rewrite (resolveInput_last _ _ _ _ Hd). now rewrite Hr.
    + intros state' Heq. rewrite !(resolveInput_last _ _ _ _ Hd).
      now rewrite Heq.
Qed.

Lemma resolveInput_last_dependency_only_witness :
  resolveInput (mk "d" ["a"; "b"; "c"])
    [("a", {| input := 0; output := 10; dependencies := [] |});
     ("b", {| input := 0; output := 20; dependencies := [] |});
     ("c", {| input := 0; output := 30; dependencies := [] |})]
  = inl 30%Z.
Proof.
  apply (proj1 (proj2 (resolveInput_last_dependency_only
                         (mk "d" ["a"; "b"; "c"]) _)
                      ["a"; "b"] "c" eq_refl)
           {| input := 0; output := 30; dependencies := [] |}).
  reflexivity.
Defined.

(** ** Claims about the loader *)

Lemma loadGraph_unfold h graphPath tr :
  loadGraph h graphPath tr =
  (match readFile h graphPath with
   | None => inr (ReadFailure graphPath)
   | Some payload =>
       match JSON_parse h payload with
       | None => inr JsonSyntaxError
       | Some JNull => inr NullGraph
       | Some spec =>
           match nodes_of spec with
           | Some (JArray _) => inl spec
           | _ => inr NodesNotArray
           end
       end
   end, tr ++ [ReadFile graphPath]).
Proof.
  unfold loadGraph, read, bind, emit, of_option, ret, throw.
  destruct (readFile h graphPath) as [payload|]; [|reflexivity].
  destruct (JSON_parse h payload) as [spec|]; [|reflexivity].
  destruct spec; try reflexivity.
  simpl. destruct (field "nodes" fields) as [[]|]; reflexivity.
Qed.

(** C9. Once the file is read, [loadGraph] returns the decoded document
    exactly when the payload decodes and the document has a [nodes] array.
    Otherwise it throws: the syntax error of [JSON.parse] for a payload
    that does not decode, the type error of reading [nodes] of [null], the
    error of line 28 for any other document.  These three are the
    malformed-graph failures. *)
Theorem loadGraph_accepts_exactly_documents_with_nodes_array
    (h : Host) (graphPath payload : string) (tr : list event) :
  readFile h graphPath = Some payload ->
  (forall spec,
     fst (loadGraph h graphPath tr) = inl spec <->
     JSON_parse h payload = Some spec /\
     exists items, nodes_of spec = Some (JArray items)) /\
  ((forall spec, fst (loadGraph h graphPath tr) <> inl spec) ->
   exists e, fst (loadGraph h graphPath tr) = inr e /\ MalformedGraph e /\
     (JSON_parse h payload = None -> e = JsonSyntaxError) /\
     (JSON_parse h payload = Some JNull -> e = NullGraph) /\
     (forall spec, JSON_parse h payload = Some spec -> spec <> JNull ->
        e = NodesNotArray)).
Proof.
  intros Hread. rewrite loadGraph_unfold, Hread. simpl.
  unfold MalformedGraph.
  destruct (JSON_parse h payload) as [spec|] eqn:Ep.
  - assert (Hcase :
      (spec = JNull) \/
      (spec <> JNull /\ exists items, nodes_of spec = Some (JArray items)) \/
      (spec <> JNull /\ forall items, nodes_of spec <> Some (JArray items))).
    { destruct spec; auto; right;
        try (right; split; [discriminate | simpl; discriminate]).
      simpl. destruct (field "nodes" fields) as [[]|];
        try (right; split; discriminate).
      left. split; [discriminate | eauto]. }
    destruct Hcase as [->|[[Hnn [items Hitems]]|[Hnn Hnone]]].
    + split.
      * intros spec. simpl. split; [discriminate|].
        intros [Heq [items Hitems]]. inversion Heq; subst. discriminate.
      * intros _. exists NullGraph. repeat split; auto; try discriminate.
        intros spec Heq Hne. congruence.
    + assert (Hok :
        match spec with
        | JNull => inr NullGraph
        | _ => match nodes_of spec with
               | Some (JArray _) => inl spec
               | _ => inr NodesNotArray
               end
        end = inl spec).
      { destruct spec; try congruence; rewrite Hitems; reflexivity. }
      rewrite Hok. split.
      * intros spec'. split.
        -- intros Heq. inversion Heq; subst. eauto.
        -- intros [Heq _]. congruence.
      * intros Hnever. exfalso. now apply (Hnever spec).
    + assert (Hko :
        match spec with
        | JNull => inr NullGraph
        | _ => match nodes_of spec with
               | Some (JArray _) => inl spec
               | _ => inr NodesNotArray
               end
        end = @inr json error NodesNotArray).
      { destruct spec; try congruence;
          destruct (nodes_of _) as [[]|] eqn:En; try reflexivity;
          exfalso; eapply Hnone; eauto. }
      rewrite Hko. split.
      * intros spec'. split; [discriminate|].
        intros [Heq [items Hitems]]. inversion Heq; subst.
        exfalso. eapply Hnone; eauto.
      * intros _. exists NodesNotArray. repeat split; auto; try discriminate.
        intros Heq. inversion Heq. congruence.
  - split.
    + intros spec. split; [discriminate | intros [Heq _]; discriminate].
    + intros _. exists JsonSyntaxError. repeat split; auto; discriminate.
Qed.

Lemma loadGraph_accepts_exactly_documents_with_nodes_array_witness :
  readFile demo_host "/app/graph.json" = Some "graph" /\
  fst (loadGraph demo_host "/app/graph.json" []) =
    inl (pipeline_doc "nodes/fetchUser.wasm" "nodes/calcDiscount.wasm"
                      "nodes/renderProfile.wasm").
Proof.
  split; [reflexivity|].
  apply (proj1 (loadGraph_accepts_exactly_documents_with_nodes_array
                  demo_host "/app/graph.json" "graph" [] eq_refl)).
  split; [reflexivity | eexists; reflexivity].
Defined.

(** The three malformed payloads, on a host that decodes them so. *)
Example loadGraph_null :
  fst (loadGraph (demo_host_with JNull) "/app/graph.json" []) = inr NullGraph.
Proof. reflexivity. Qed.

Example loadGraph_nodes_not_array :
  fst (loadGraph (demo_host_with (JObject [("nodes", JString "none")]))
                 "/app/graph.json" []) = inr NodesNotArray.
Proof. reflexivity. Qed.

(** ** The executor and the runner, step by step *)

Section RunFacts.

Variable h : Host.

Lemma executeNode_unfold baseDir node state tr :
  executeNode h baseDir node state tr =
  match wasm node with
  | Some (JString p) =>
      let wasmPath := path_resolve h baseDir p in
      let tr1 := tr ++ [ReadFile wasmPath] in
      match readFile h wasmPath with
      | None => (inr (ReadFailure wasmPath), tr1)
      | Some binary =>
          let tr2 := tr1 ++ [Instantiate binary] in
          match instantiate h binary with
          | None => (inr InstantiateFailure, tr2)
          | Some exports =>
              match JsMap.get "main" exports with
              | Some (ExportFunction entry) =>
                  match resolveInput node state with
                  | inr e => (inr e, tr2)
                  | inl i =>
                      let tr3 := tr2 ++ [Invoke (id node) i] in
                      match entry i with
                      | None => (inr (ModuleTrap (id node)), tr3)
                      | Some o =>
                          (inl (JsMap.set (id node)
                                  {| input := i; output := o;
                                     dependencies := deps node |} state),
                           tr3)
                      end
                  end
              | _ => (inr (MissingEntryPoint (id node)), tr2)
              end
          end
      end
  | _ => (inr InvalidPathArgument, tr)
  end.
Proof.
  unfold executeNode, read, bind, emit, of_option, ret, throw, lift.
  destruct (wasm node) as [[]|]; try reflexivity. simpl.
  destruct (readFile h _) as [binary|]; [|reflexivity].
  destruct (instantiate h binary) as [exports|]; [|reflexivity].
  destruct (JsMap.get "main" exports) as [[entry|]|]; try reflexivity.
  destruct (resolveInput node state) as [i|e]; [|reflexivity].
  destruct (entry i); reflexivity.
Qed.

Lemma executeNode_inl baseDir node state tr state' tr' :
  executeNode h baseDir node state tr = (inl state', tr') ->
  exists w binary record,
    wasm node = Some (JString w) /\
    readFile h (path_resolve h baseDir w) = Some binary /\
    resolveInput node state = inl (input record) /\
    dependencies record = deps node /\
    state' = JsMap.set (id node) record state /\
    tr' = tr ++ [ReadFile (path_resolve h baseDir w); Instantiate binary;
                 Invoke (id node) (input record)].
Proof.
  rewrite executeNode_unfold.
  destruct (wasm node) as [[]|]; try discriminate. simpl.
  destruct (readFile h _) as [binary|] eqn:Er; [|discriminate].
  destruct (instantiate h binary) as [exports|]; [|discriminate].
  destruct (JsMap.get "main" exports) as [[entry|]|]; try discriminate.
  destruct (resolveInput node state) as [i|e] eqn:Ei; [|discriminate].
  destruct (entry i) as [o|]; [|discriminate].
  intros H. inversion H; subst.
  exists s, binary, {| input := i; output := o; dependencies := deps node |}.
  simpl. repeat split; auto. now rewrite <- !app_assoc.
Qed.

Lemma resolveInput_defined node (state : ExecutionState) :
  (forall d, In d (deps node) -> In d (JsMap.keys state)) ->
  exists v, resolveInput node state = inl v.
Proof.
  intros Hdeps. destruct (deps node) as [|d0 ds] eqn:Ed.
  - exists 0%Z. unfold resolveInput. now rewrite Ed.
  - destruct (exists_last (l := d0 :: ds)) as (others & lastDep & Heq);
      [discriminate|].
    rewrite Heq in Hdeps. rewrite <- Ed in Heq.
    rewrite (resolveInput_last _ _ _ _ Heq).
    destruct (JsMap.get lastDep state) as [record|] eqn:Eg; eauto.
    exfalso. apply get_none_iff in Eg. apply Eg, Hdeps.
    apply in_or_app. right. now left.
Qed.

Lemma executeNode_never_missing_state baseDir node state tr :
  (forall d, In d (deps node) -> In d (JsMap.keys state)) ->
  forall d, fst (executeNode h baseDir node state tr)
            <> inr (MissingUpstreamState d).
Proof.
  intros Hdeps d. rewrite executeNode_unfold.
  destruct (resolveInput_defined node state Hdeps) as [v Hv].
  destruct (wasm node) as [[]|]; try discriminate. simpl.
  destruct (readFile h _) as [binary|]; [|discriminate].
  destruct (instantiate h binary) as [exports|]; [|discriminate].
  destruct (JsMap.get "main" exports) as [[entry|]|]; try discriminate.
  rewrite Hv. destruct (entry v); discriminate.
Qed.

Lemma executeAll_app baseDir l1 : forall l2 state tr,
  executeAll h baseDir (l1 ++ l2) state tr =
  match executeAll h baseDir l1 state tr with
  | (inl state1, tr1) => executeAll h baseDir l2 state1 tr1
  | (inr e, tr1) => (inr e, tr1)
  end.
Proof.
  induction l1 as [|n l1 IH]; intros l2 state tr; simpl; [reflexivity|].
  unfold bind. destruct (executeNode h baseDir n state tr) as [[st|e] tr1].
  - apply IH.
  - reflexivity.
Qed.

Lemma executeAll_cons baseDir node rest state tr :
  executeAll h baseDir (node :: rest) state tr =
  match executeNode h baseDir node state tr with
  | (inl state1, tr1) => executeAll h baseDir rest state1 tr1
  | (inr e, tr1) => (inr e, tr1)
  end.
Proof. reflexivity. Qed.

(** On ids not yet in the state, the loop only appends records. *)
Lemma executeAll_appends baseDir : forall rest state tr state' tr',
  executeAll h baseDir rest state tr = (inl state', tr') ->
  NoDup (JsMap.keys state ++ ids rest) ->
  exists added, state' = state ++ added /\ JsMap.keys added = ids rest.
Proof.
  induction rest as [|node rest IH]; intros state tr state' tr' H Hnd.
  - inversion H; subst. exists []. now rewrite app_nil_r.
  - rewrite executeAll_cons in H.
    destruct (executeNode h baseDir node state tr) as [[st1|e] tr1] eqn:En;
      [|discriminate].
    apply executeNode_inl in En.
    destruct En as (w & binary & record & _ & _ & _ & _ & -> & _).
    assert (Hfresh : JsMap.get (id node) state = None).
    { apply get_none_iff. intros Hin. simpl in Hnd.
      apply NoDup_remove_2 in Hnd. apply Hnd, in_or_app. now left. }
    rewrite set_fresh in H by assumption.
    apply IH in H.
    + destruct H as (added & -> & Hkeys).
      exists ((id node, record) :: added). split.
      * now rewrite <- app_assoc.
      * simpl. now rewrite Hkeys.
    + unfold JsMap.keys. rewrite map_app. simpl.
      rewrite <- app_assoc. exact Hnd.
Qed.

(** The loop never stops on a missing upstream record when every node's
    dependencies stand before it. *)
Lemma executeAll_never_missing_state baseDir : forall rest done state tr,
  deps_before (done ++ rest) ->
  (forall k, In k (ids done) -> In k (JsMap.keys state)) ->
  forall d, fst (executeAll h baseDir rest state tr)
            <> inr (MissingUpstreamState d).
Proof.
  induction rest as [|node rest IH]; intros done state tr Hord Hkeys d.
  - discriminate.
  - rewrite executeAll_cons.
    assert (Hdeps : forall x, In x (deps node) -> In x (JsMap.keys state)).
    { intros x Hx. destruct (Hord done node rest eq_refl x Hx) as (M & HM & <-).
      apply Hkeys. now apply in_map. }
    pose proof (executeNode_never_missing_state baseDir node state tr Hdeps d)
      as Hnode.
    destruct (executeNode h baseDir node state tr) as [[st1|e] tr1] eqn:En.
    + apply executeNode_inl in En.
      destruct En as (w & binary & record & _ & _ & _ & _ & -> & _).
      apply (IH (done ++ [node])).
      * now rewrite <- app_assoc.
      * intros k Hk. unfold ids in Hk. rewrite map_app in Hk.
        apply in_app_or in Hk.
        destruct (string_dec (id node) k) as [<-|Hne].
        -- eapply get_some_in_keys. apply get_set_same.
        -- destruct Hk as [Hk|[Hk|[]]]; [|contradiction].
           apply Hkeys in Hk.
           destruct (JsMap.get k state) as [v|] eqn:Eg.
           ++ eapply get_some_in_keys.
              rewrite get_set_other by assumption. exact Eg.
           ++ apply get_none_iff in Eg. contradiction.
    + exact Hnode.
Qed.

Lemma runGraph_unfold graphPath tr :
  runGraph h graphPath tr =
  match loadGraph h graphPath tr with
  | (inr e, tr1) => (inr e, tr1)
  | (inl graph, tr1) =>
      match typed_nodes graph with
      | inr e => (inr e, tr1)
      | inl nodes =>
          match topoSort nodes with
          | inr e => (inr e, tr1)
          | inl ordered =>
              executeAll h (path_dirname h graphPath) ordered JsMap.empty tr1
          end
      end
  end.
Proof.
  unfold runGraph, bind, lift.
  destruct (loadGraph h graphPath tr) as [[graph|e] tr1]; [|reflexivity].
  destruct (typed_nodes graph) as [nodes|e]; [|reflexivity].
  destruct (topoSort nodes) as [ordered|e]; reflexivity.
Qed.

Lemma loadGraph_trace graphPath tr :
  snd (loadGraph h graphPath tr) = tr ++ [ReadFile graphPath].
Proof. now rewrite loadGraph_unfold. Qed.

End RunFacts.

(** ** Claims about failures *)

(** C5. When ids are unique and some [dependsOn] entry names no node,
    [topoSort] throws the unknown-dependency error for such an entry; a run
    on that graph stops there, its only effect being the read of the graph
    file: no module is read, instantiated or called. *)
Theorem unknown_dependency_rejected_before_any_module (nodes : list NodeSpec) :
  NoDup (ids nodes) ->
  (exists n d, In n nodes /\ In d (deps n) /\ ~ In d (ids nodes)) ->
  exists n d,
    In n nodes /\ In d (deps n) /\ ~ In d (ids nodes) /\
    topoSort nodes = inr (UnknownDependency (id n) d) /\
    forall h graphPath tr graph,
      fst (loadGraph h graphPath tr) = inl graph ->
      typed_nodes graph = inl nodes ->
      runGraph h graphPath tr =
        (inr (UnknownDependency (id n) d), tr ++ [ReadFile graphPath]).
Proof.
  intros Hnd (n0 & d0 & Hn0 & Hd0 & Hnot0).
  destruct (topoSort_unknown nodes Hnd) as (n & d & Hn & Hd & Hnot & Hsort).
  { intros Hclosed. apply Hnot0. eapply Hclosed; eauto. }
  exists n, d. repeat split; auto.
  intros h graphPath tr graph Hload Htyped.
  rewrite runGraph_unfold.
  pose proof (loadGraph_trace h graphPath tr) as Htr.
  destruct (loadGraph h graphPath tr) as [[g|e] tr1]; simpl in *;
    [|discriminate].
  inversion Hload; subst. now rewrite Htyped, Hsort.
Qed.

Lemma unknown_dependency_rejected_before_any_module_witness :
  exists n d,
    runGraph dangling_host "/app/graph.json" [] =
      (inr (UnknownDependency n d), [ReadFile "/app/graph.json"]).
Proof.
  assert (Hnd : NoDup (ids dangling)) by concrete_nodup.
  assert (Hopen : exists n d,
            In n dangling /\ In d (deps n) /\ ~ In d (ids dangling)).
  { exists (mk "b" ["a"; "ghost"]), "ghost". simpl.
    repeat split; auto. intuition discriminate. }
  destruct (unknown_dependency_rejected_before_any_module dangling Hnd Hopen)
    as (n & d & _ & _ & _ & _ & Hrun).
  exists (id n), d.
  exact (Hrun dangling_host "/app/graph.json" [] _ eq_refl eq_refl).
Defined.

(** C6. Whichever step of a run fails (the load, the resolution, or the
    execution of a node after others have completed and left their
    records), [runGraph] ends with that error and returns no state. *)
Theorem any_failure_aborts_the_run
    (h : Host) (graphPath : string) (tr : list event) (e : error) :
  step_fails h graphPath tr e ->
  fst (runGraph h graphPath tr) = inr e /\
  forall state, fst (runGraph h graphPath tr) <> inl state.
Proof.
  intros Hfail.
  assert (Hres : fst (runGraph h graphPath tr) = inr e).
  { rewrite runGraph_unfold.
    destruct Hfail as [Hload | graph nodes Hload Hty Hsort
                       | graph tr1 nodes completed node rest state tr2
                           Hload Htyped Hsort Hdone Hnode].
    - destruct (loadGraph h graphPath tr) as [[g|e'] tr1]; simpl in *;
        congruence.
    - destruct (loadGraph h graphPath tr) as [[g|e'] tr1]; simpl in *;
        [|discriminate].
      inversion Hload; subst. now rewrite Hty, Hsort.
    - rewrite Hload, Htyped, Hsort, executeAll_app, Hdone, executeAll_cons.
      destruct (executeNode h (path_dirname h graphPath) node state tr2)
        as [[st|e'] tr3]; simpl in *; congruence. }
  split; [exact Hres | intros state Hst; congruence].
Qed.

Lemma any_failure_aborts_the_run_witness :
  fst (runGraph broken_host "/app/graph.json" []) =
    inr (ReadFailure "/app/nodes/missing.wasm").
Proof.
  apply (any_failure_aborts_the_run broken_host "/app/graph.json" []).
  apply (node_fails broken_host "/app/graph.json" [] _
           (pipeline_doc "nodes/fetchUser.wasm" "nodes/missing.wasm"
                         "nodes/renderProfile.wasm")
           [ReadFile "/app/graph.json"]
           (pipeline_nodes "nodes/fetchUser.wasm" "nodes/missing.wasm"
                           "nodes/renderProfile.wasm")
           [ {| id := "fetchUser";
                wasm := Some (JString "nodes/fetchUser.wasm");
                dependsOn := None |} ]
           {| id := "calcDiscount";
              wasm := Some (JString "nodes/missing.wasm");
              dependsOn := Some ["fetchUser"] |}
           [ {| id := "renderProfile";
                wasm := Some (JString "nodes/renderProfile.wasm");
                dependsOn := Some ["calcDiscount"] |} ]
           [("fetchUser",
             {| input := 0; output := 1001; dependencies := [] |})]
           [ReadFile "/app/graph.json"; ReadFile "/app/nodes/fetchUser.wasm";
            Instantiate "fetchUser"; Invoke "fetchUser" 0]);
    reflexivity.
Defined.

(** ** Claims about the execution state *)

(** C7. In a successful run the keys of the returned state, in insertion
    order, are the ids of the resolved order, without repetition; and for
    every prefix of that order, the state reached once the prefix has run
    holds exactly the ids of the prefix and is an initial segment of the
    returned state: each record is appended when its node runs and is
    neither replaced nor removed afterwards. *)
Theorem state_is_append_only_in_execution_order
    (h : Host) (graphPath : string) (tr : list event) (state : ExecutionState) :
  fst (runGraph h graphPath tr) = inl state ->
  exists graph tr1 nodes ordered,
    loadGraph h graphPath tr = (inl graph, tr1) /\
    typed_nodes graph = inl nodes /\
    topoSort nodes = inl ordered /\
    JsMap.keys state = ids ordered /\
    NoDup (JsMap.keys state) /\
    forall done rest, ordered = done ++ rest ->
      exists state1 tr2 later,
        executeAll h (path_dirname h graphPath) done JsMap.empty tr1
          = (inl state1, tr2) /\
        JsMap.keys state1 = ids done /\
        state = state1 ++ later /\
        JsMap.keys later = ids rest.
Proof.
  rewrite runGraph_unfold. intros Hrun.
  destruct (loadGraph h graphPath tr) as [[graph|e] tr1] eqn:Hload;
    [|discriminate].
  destruct (typed_nodes graph) as [nodes|e] eqn:Htyped; [|discriminate].
  destruct (topoSort nodes) as [ordered|e] eqn:Hsort; [|discriminate].
  destruct (topoSort_inl _ _ Hsort) as [Hnd _].
  destruct (topoSort_sound _ _ Hsort) as [Hperm _].
  assert (Hnd' : NoDup (ids ordered)).
  { eapply Permutation_NoDup; [|exact Hnd]. now apply Permutation_map. }
  destruct (executeAll h (path_dirname h graphPath) ordered JsMap.empty tr1)
    as [[st|e] tr'] eqn:Hall; simpl in Hrun; [|discriminate].
  inversion Hrun; subst st.
  exists graph, tr1, nodes, ordered.
  destruct (executeAll_appends h _ _ _ _ _ _ Hall Hnd') as (added & Hst & Hk).
  simpl in Hst. subst added.
  repeat split; auto.
  - now rewrite Hk.
  - intros done rest Heq. subst ordered.
    rewrite executeAll_app in Hall.
    destruct (executeAll h (path_dirname h graphPath) done JsMap.empty tr1)
      as [[state1|e] tr2] eqn:Hdone; [|discriminate].
    unfold ids in Hnd'. rewrite map_app in Hnd'.
    destruct (executeAll_appends h _ _ _ _ _ _ Hdone) as (added1 & H1 & Hk1).
    { simpl. eapply NoDup_app_remove_r. exact Hnd'. }
    simpl in H1. subst added1.
    destruct (executeAll_appends h _ _ _ _ _ _ Hall) as (later & H2 & Hk2).
    { rewrite Hk1. exact Hnd'. }
    exists state1, tr2, later. auto.
Qed.

Lemma state_is_append_only_in_execution_order_witness :
  exists graph tr1 nodes ordered,
    loadGraph demo_host "/app/graph.json" [] = (inl graph, tr1) /\
    typed_nodes graph = inl nodes /\
    topoSort nodes = inl ordered /\
    JsMap.keys pipeline_state = ids ordered /\
    NoDup (JsMap.keys pipeline_state) /\
    forall done rest, ordered = done ++ rest ->
      exists state1 tr2 later,
        executeAll demo_host (path_dirname demo_host "/app/graph.json")
                   done JsMap.empty tr1 = (inl state1, tr2) /\
        JsMap.keys state1 = ids done /\
        pipeline_state = state1 ++ later /\
        JsMap.keys later = ids rest.
Proof.
  apply (state_is_append_only_in_execution_order
           demo_host "/app/graph.json" []).
  reflexivity.
Defined.

(** ** The internal checks, on nodes that fit the interface *)

(** On nodes that fit [interface NodeSpec], [topoSort] throws neither the
    missing-node error nor the negative in-degree error, a [dependsOn] with
    repeated entries included; and a run never stops on a missing upstream
    record, whichever node of the resolved order is being executed. *)
Lemma typed_internal_checks_never_fire (nodes : list NodeSpec) :
  (forall e, ResolverFault e -> topoSort nodes <> inr e) /\
  (forall h graphPath tr graph,
     fst (loadGraph h graphPath tr) = inl graph ->
     typed_nodes graph = inl nodes ->
     forall d, fst (runGraph h graphPath tr) <> inr (MissingUpstreamState d)).
Proof.
  assert (Hsort : forall e, topoSort nodes = inr e ->
            (forall k, e <> NodeMissing k) /\
            (forall k, e <> NegativeIndegree k) /\
            (forall d, e <> MissingUpstreamState d)).
  { intros e He. apply topoSort_errors in He.
    destruct He as [[k ->] | [(n & d & ->) | ->]]; repeat split; discriminate. }
  split.
  - intros e [[k ->]|[k ->]] Hk; apply Hsort in Hk.
    + destruct Hk as (Hk & _). now apply (Hk k).
    + destruct Hk as (_ & Hk & _). now apply (Hk k).
  - intros h graphPath tr graph Hload Htyped d.
    rewrite runGraph_unfold.
    destruct (loadGraph h graphPath tr) as [[g|e] tr1]; simpl in *;
      [|discriminate].
    inversion Hload; subst g. rewrite Htyped.
    destruct (topoSort nodes) as [ordered|e] eqn:Hs.
    + destruct (topoSort_sound _ _ Hs) as [_ Hord].
      apply (executeAll_never_missing_state h _ ordered []); auto.
    + simpl. intros Heq. inversion Heq; subst.
      destruct (Hsort _ eq_refl) as (_ & _ & Hm). now apply (Hm d).
Qed.

(** ** The end-to-end scenario *)

Lemma typed_pipeline w1 w2 w3 :
  typed_nodes (pipeline_doc w1 w2 w3) = inl (pipeline_nodes w1 w2 w3).
Proof. reflexivity. Qed.

Lemma topoSort_pipeline w1 w2 w3 :
  topoSort (pipeline_nodes w1 w2 w3) = inl (pipeline_nodes w1 w2 w3).
Proof. reflexivity. Qed.

Lemma typed_nodes_inl graph nodes :
  typed_nodes graph = inl nodes ->
  exists items,
    nodes_of graph = Some (JArray items) /\ asNodeSpecs items = Some nodes.
Proof.
  unfold typed_nodes.
  destruct (nodes_of graph) as [[]|]; try discriminate.
  destruct (asNodeSpecs items) as [ns|] eqn:E; [|discriminate].
  intros H. inversion H; subst. eauto.
Qed.

Lemma loadGraph_served h graphPath doc items tr :
  serves h graphPath doc ->
  nodes_of doc = Some (JArray items) ->
  loadGraph h graphPath tr = (inl doc, tr ++ [ReadFile graphPath]).
Proof.
  intros (payload & Hread & Hparse) Hnodes.
  rewrite loadGraph_unfold, Hread, Hparse.
  destruct doc; try discriminate; now rewrite Hnodes.
Qed.

Lemma runGraph_served h graphPath doc nodes ordered tr :
  serves h graphPath doc ->
  typed_nodes doc = inl nodes ->
  topoSort nodes = inl ordered ->
  runGraph h graphPath tr =
  executeAll h (path_dirname h graphPath) ordered JsMap.empty
             (tr ++ [ReadFile graphPath]).
Proof.
  intros Hs Ht Hsort. destruct (typed_nodes_inl _ _ Ht) as (items & Hn & _).
  rewrite runGraph_unfold, (loadGraph_served _ _ _ _ _ Hs Hn), Ht, Hsort.
  reflexivity.
Qed.

Lemma executeNode_module h baseDir node state tr w f i o :
  wasm node = Some (JString w) ->
  module_at h (path_resolve h baseDir w) f ->
  resolveInput node state = inl i ->
  f i = Some o ->
  fst (executeNode h baseDir node state tr) =
    inl (JsMap.set (id node)
           {| input := i; output := o; dependencies := deps node |} state).
Proof.
  intros Hw (binary & exports & Hread & Hinst & Hmain) Hin Hf.
  rewrite executeNode_unfold, Hw. simpl.
  now rewrite Hread, Hinst, Hmain, Hin, Hf.
Qed.

(** C3. The three-node pipeline: [fetchUser] without dependencies,
    [calcDiscount] after it, [renderProfile] last, with modules that return
    1001, twice the input minus one, and twice the input (on i32 inputs
    whose result is an i32).  The run returns the state
    fetchUser: 0 -> 1001, calcDiscount: 1001 -> 2001,
    renderProfile: 2001 -> 4002. *)
Theorem pipeline_final_state
    (h : Host) (graphPath w1 w2 w3 : string) (f1 f2 f3 : Z -> option Z)
    (tr : list event) :
  serves h graphPath (pipeline_doc w1 w2 w3) ->
  module_at h (path_resolve h (path_dirname h graphPath) w1) f1 ->
  module_at h (path_resolve h (path_dirname h graphPath) w2) f2 ->
  module_at h (path_resolve h (path_dirname h graphPath) w3) f3 ->
  (forall x, f1 x = Some 1001%Z) ->
  (forall x, in_i32 x -> in_i32 (x * 2 - 1) -> f2 x = Some (x * 2 - 1)%Z) ->
  (forall x, in_i32 x -> in_i32 (x * 2) -> f3 x = Some (x * 2)%Z) ->
  fst (runGraph h graphPath tr) = inl pipeline_state.
Proof.
  intros Hserves M1 M2 M3 F1 F2 F3.
  rewrite (runGraph_served h graphPath _ _ _ tr Hserves
             (typed_pipeline w1 w2 w3) (topoSort_pipeline w1 w2 w3)).
  unfold pipeline_nodes.
  set (base := path_dirname h graphPath) in *.
  rewrite executeAll_cons.
  pose proof (executeNode_module h base
                {| id := "fetchUser"; wasm := Some (JString w1);
                   dependsOn := None |}
                JsMap.empty (tr ++ [ReadFile graphPath]) w1 f1 0%Z 1001%Z
                eq_refl M1 eq_refl (F1 _)) as E1.
  destruct (executeNode h base _ JsMap.empty _) as [r1 t1].
  simpl in E1. subst r1.
  rewrite executeAll_cons.
  assert (F2' : f2 1001%Z = Some 2001%Z).
  { rewrite F2; unfold in_i32; [reflexivity | lia | lia]. }
  pose proof (executeNode_module h base
                {| id := "calcDiscount"; wasm := Some (JString w2);
                   dependsOn := Some ["fetchUser"] |}
                [("fetchUser",
                  {| input := 0; output := 1001; dependencies := [] |})]
                t1 w2 f2 1001%Z 2001%Z eq_refl M2 eq_refl F2') as E2.
  destruct (executeNode h base _ _ t1) as [r2 t2].
  simpl in E2. subst r2.
  rewrite executeAll_cons.
  assert (F3' : f3 2001%Z = Some 4002%Z).
  { rewrite F3; unfold in_i32; [reflexivity | lia | lia]. }
  pose proof (executeNode_module h base
                {| id := "renderProfile"; wasm := Some (JString w3);
                   dependsOn := Some ["calcDiscount"] |}
                [("fetchUser",
                  {| input := 0; output := 1001; dependencies := [] |});
                 ("calcDiscount",
                  {| input := 1001; output := 2001;
                     dependencies := ["fetchUser"] |})]
                t2 w3 f3 2001%Z 4002%Z eq_refl M3 eq_refl F3') as E3.
  destruct (executeNode h base _ _ t2) as [r3 t3].
  simpl in E3. subst r3.
  reflexivity.
Qed.

Lemma i32_wrap_id z : in_i32 z -> i32_wrap z = z.
Proof.
  unfold in_i32, i32_wrap. intros H.
  rewrite Z.mod_small; lia.
Qed.

Lemma pipeline_final_state_witness :
  fst (runGraph demo_host "/app/graph.json" []) = inl pipeline_state.
Proof.
  apply (pipeline_final_state demo_host "/app/graph.json"
           "nodes/fetchUser.wasm" "nodes/calcDiscount.wasm"
           "nodes/renderProfile.wasm"
           (fun _ => Some 1001%Z)
           (fun x => Some (i32_wrap (x * 2 - 1)))
           (fun x => Some (i32_wrap (x * 2)))).
  - exists "graph". split; reflexivity.
  - exists "fetchUser", [("main", ExportFunction (fun _ => Some 1001%Z))].
    repeat split; reflexivity.
  - exists "calcDiscount",
      [("main", ExportFunction (fun x => Some (i32_wrap (x * 2 - 1))))].
    repeat split; reflexivity.
  - exists "renderProfile",
      [("main", ExportFunction (fun x => Some (i32_wrap (x * 2))))].
    repeat split; reflexivity.
  - reflexivity.
  - intros x _ Hx. f_equal. now apply i32_wrap_id.
  - intros x _ Hx. f_equal. now apply i32_wrap_id.
Defined.

(** ** The key under which a node carries its module *)

Lemma asNodeSpec_fields v n :
  asNodeSpec v = Some n ->
  exists fields,
    v = JObject fields /\
    field "id" fields = Some (JString (id n)) /\
    field "wasm" fields = wasm n.
Proof.
  destruct v; try discriminate. simpl.
  destruct (field "id" fields) as [[]|] eqn:Ei; try discriminate.
  intros H. exists fields.
  destruct (field "dependsOn" fields) as [[]|]; try discriminate.
  - inversion H; subst. auto.
  - destruct (strings_of items); [|discriminate]. inversion H; subst. auto.
  - inversion H; subst. auto.
Qed.

Lemma asNodeSpecs_Forall2 items : forall nodes,
  asNodeSpecs items = Some nodes ->
  Forall2 (fun n v => asNodeSpec v = Some n) nodes items.
Proof.
  induction items as [|v items IH]; intros nodes H; simpl in H.
  - inversion H. constructor.
  - destruct (asNodeSpec v) as [n|] eqn:Ev; [|discriminate].
    destruct (asNodeSpecs items) as [ns|]; [|discriminate].
    inversion H; subst. constructor; auto.
Qed.

Lemma executeAll_ran h baseDir : forall rest items state tr state' tr',
  Forall2 (fun n v => asNodeSpec v = Some n) rest items ->
  executeAll h baseDir rest state tr = (inl state', tr') ->
  NoDup (JsMap.keys state ++ ids rest) ->
  exists added evs,
    state' = state ++ added /\ tr' = tr ++ evs /\
    ran "wasm" h baseDir items added evs.
Proof.
  induction rest as [|node rest IH]; intros items state tr state' tr' HF H Hnd.
  - inversion HF; subst. inversion H; subst.
    exists [], []. rewrite !app_nil_r. repeat split. constructor.
  - inversion HF as [|? v ? items' Hv HF']; subst.
    rewrite executeAll_cons in H.
    destruct (executeNode h baseDir node state tr) as [[st1|e] tr1] eqn:En;
      [|discriminate].
    apply executeNode_inl in En.
    destruct En as (w & binary & record & Hw & Hread & _ & _ & -> & ->).
    assert (Hfresh : JsMap.get (id node) state = None).
    { apply get_none_iff. intros Hin. simpl in Hnd.
      apply NoDup_remove_2 in Hnd. apply Hnd, in_or_app. now left. }
    rewrite set_fresh in H by assumption.
    apply (IH items') in H; auto.
    + destruct H as (added & evs & -> & -> & Hran).
      destruct (asNodeSpec_fields _ _ Hv) as (fields & -> & Hid & Hwasm).
      exists ((id node, record) :: added),
             (ReadFile (path_resolve h baseDir w) :: Instantiate binary
              :: Invoke (id node) (input record) :: evs).
      repeat split.
      * now rewrite <- app_assoc.
      * now rewrite <- app_assoc.
      * constructor; auto. congruence.
    + unfold JsMap.keys. rewrite map_app. simpl.
      rewrite <- app_assoc. exact Hnd.
Qed.

(** C8, as the code has it.  The location of a node's module stands under
    the key [wasm] of its object in the description.  In a successful run
    the effects that follow the read of the graph file are, node after node
    in the resolved order: the read of the file at that location resolved
    against the directory of the graph file, the instantiation of what was
    read, and the call. *)
Theorem modules_are_located_by_the_wasm_key : located_by "wasm".
Proof.
  intros h graphPath tr state Hrun.
  rewrite runGraph_unfold in *. rewrite loadGraph_unfold in *.
  destruct (readFile h graphPath) as [payload|] eqn:Hread; [|discriminate].
  destruct (JSON_parse h payload) as [doc|] eqn:Hparse; [|discriminate].
  assert (Hload :
    (match doc with
     | JNull => inr NullGraph
     | _ => match nodes_of doc with
            | Some (JArray _) => inl doc
            | _ => inr NodesNotArray
            end
     end = @inl json error doc) \/
    (exists e, match doc with
     | JNull => inr NullGraph
     | _ => match nodes_of doc with
            | Some (JArray _) => inl doc
            | _ => inr NodesNotArray
            end
     end = @inr json error e)).
  { destruct doc; eauto; destruct (nodes_of _) as [[]|]; eauto. }
  destruct Hload as [Hload|[e Hload]]; rewrite Hload in *; [|discriminate].
  destruct (typed_nodes doc) as [nodes|e] eqn:Htyped; [|discriminate].
  destruct (topoSort nodes) as [ordered|e] eqn:Hsort; [|discriminate].
  destruct (typed_nodes_inl _ _ Htyped) as (items & Hnodes & Hitems).
  destruct (topoSort_inl _ _ Hsort) as [Hnd _].
  destruct (topoSort_sound _ _ Hsort) as [Hperm _].
  destruct (Permutation_Forall2 Hperm (asNodeSpecs_Forall2 _ _ Hitems))
    as (oitems & Hperm' & HF).
  destruct (executeAll h (path_dirname h graphPath) ordered JsMap.empty
              (tr ++ [ReadFile graphPath])) as [[st|e] tr'] eqn:Hall;
    simpl in Hrun; [|discriminate].
  inversion Hrun; subst st.
  destruct (executeAll_ran h _ _ _ _ _ _ _ HF Hall)
    as (added & evs & Hst & Htr & Hran).
  { simpl. eapply Permutation_NoDup; [|exact Hnd]. now apply Permutation_map. }
  simpl in Hst. subst added.
  exists doc, items, oitems, evs. repeat split; auto.
  - exists payload. auto.
  - simpl. rewrite Htr. now rewrite <- app_assoc.
Qed.

Lemma modules_are_located_by_the_wasm_key_witness :
  exists doc items ordered evs,
    serves demo_host "/app/graph.json" doc /\
    nodes_of doc = Some (JArray items) /\
    Permutation items ordered /\
    snd (runGraph demo_host "/app/graph.json" [])
      = [] ++ ReadFile "/app/graph.json" :: evs /\
    ran "wasm" demo_host (path_dirname demo_host "/app/graph.json")
        ordered pipeline_state evs.
Proof.
  apply (modules_are_located_by_the_wasm_key demo_host "/app/graph.json" []).
  reflexivity.
Defined.

(** C8, as the specification words it, fails.  A description that carries
    the location under [modulePath] does not run: [path.resolve] receives
    [undefined] and throws before any module file is read, although the
    module is in place.  And the description that does run has no such
    key. *)
Lemma modulePath_key_is_not_read :
  module_at modulePath_host "/app/nodes/fetchUser.wasm"
            (fun _ => Some 1001%Z) /\
  runGraph modulePath_host "/app/graph.json" [] =
    (inr InvalidPathArgument, [ReadFile "/app/graph.json"]) /\
  ~ located_by "modulePath".
Proof.
  split; [|split].
  - exists "fetchUser", [("main", ExportFunction (fun _ => Some 1001%Z))].
    repeat split; reflexivity.
  - reflexivity.
  - intros H.
    destruct (H demo_host "/app/graph.json" [] pipeline_state eq_refl)
      as (doc & items & ordered & evs & Hserves & Hnodes & Hperm & _ & Hran).
    destruct Hserves as (payload & Hread & Hparse).
    simpl in Hread. inversion Hread; subst payload.
    simpl in Hparse. inversion Hparse; subst doc.
    simpl in Hnodes. inversion Hnodes; subst items. clear Hnodes.
    inversion Hran as [|fields i w binary record rest st evs' Hid Hkey _ _ Ho];
      subst.
    assert (Hin : In (JObject fields)
              [JObject [("id", JString "fetchUser");
                        ("wasm", JString "nodes/fetchUser.wasm")];
               node_object "calcDiscount" "nodes/calcDiscount.wasm"
                           ["fetchUser"];
               node_object "renderProfile" "nodes/renderProfile.wasm"
                           ["calcDiscount"]]).
    { eapply Permutation_in; [apply Permutation_sym; exact Hperm|].
      now left. }
    simpl in Hin.
    destruct Hin as [Hin|[Hin|[Hin|[]]]]; inversion Hin; subst fields;
      discriminate.
Qed.

(** * Further properties of the code *)

(** ** Repeated ids *)

Lemma index_nodes_app l1 : forall l2 tb,
  index_nodes (l1 ++ l2) tb =
  match index_nodes l1 tb with
  | inl tb' => index_nodes l2 tb'
  | inr e => inr e
  end.
Proof.
  induction l1 as [|n l1 IH]; intros l2 tb; simpl; [reflexivity|].
  destruct (JsMap.has (id n) (byId tb)); [reflexivity | apply IH].
Qed.

Lemma first_repeated_id (nodes : list NodeSpec) :
  ~ NoDup (ids nodes) ->
  exists l1 n l2,
    nodes = l1 ++ n :: l2 /\ NoDup (ids l1) /\ In (id n) (ids l1).
Proof.
  induction nodes as [|x l IH] using rev_ind; intros Hdup.
  - exfalso. apply Hdup. constructor.
  - destruct (ListDec.NoDup_dec string_dec (ids l)) as [Hnd|Hnd].
    + exists l, x, []. repeat split; auto.
      destruct (in_dec string_dec (id x) (ids l)) as [Hin|Hout]; auto.
      exfalso. apply Hdup. unfold ids. rewrite map_app. simpl.
      now apply NoDup_snoc.
    + destruct (IH Hnd) as (l1 & n & l2 & -> & Hl1 & Hin).
      exists l1, n, (l2 ++ [x]). repeat split; auto.
      now rewrite <- app_assoc.
Qed.

Lemma topoSort_repeated_id l1 l2 n :
  NoDup (ids l1) -> In (id n) (ids l1) ->
  topoSort (l1 ++ n :: l2) = inr (DuplicateNode (id n)).
Proof.
  intros Hnd Hin. unfold topoSort.
  change no_tables with (registered []).
  rewrite index_nodes_app, (index_nodes_closed_form l1 []) by assumption.
  simpl.
  assert (Hhas : JsMap.has (id n) (map (fun n => (id n, n)) l1) = true).
  { apply has_true_iff. now rewrite (keys_map_id (fun n => n)). }
  now rewrite Hhas.
Qed.

(** X1. When the id of a node has already been met among the nodes before
    it, and those are pairwise distinct, [topoSort] throws the duplicate
    error for that id, whatever else the graph contains (dangling
    dependencies, cycles). *)
Theorem topoSort_reports_first_repeated_id
    (l1 l2 : list NodeSpec) (n : NodeSpec) :
  NoDup (ids l1) -> In (id n) (ids l1) ->
  topoSort (l1 ++ n :: l2) = inr (DuplicateNode (id n)).
Proof. exact (topoSort_repeated_id l1 l2 n). Qed.

Lemma topoSort_reports_first_repeated_id_witness :
  topoSort twins = inr (DuplicateNode "a").
Proof.
  apply (topoSort_reports_first_repeated_id
           [mk "a" []; mk "b" ["ghost"]] [] (mk "a" ["b"])).
  - concrete_nodup.
  - simpl. auto.
Defined.

(** X2. [topoSort] throws the duplicate error exactly when two nodes of
    its argument share an id. *)
Theorem topoSort_duplicate_error_iff (nodes : list NodeSpec) :
  (exists k, topoSort nodes = inr (DuplicateNode k)) <-> ~ NoDup (ids nodes).
Proof.
  split.
  - intros [k Hk] Hnd.
    pose proof Hk as Hk0. rewrite (topoSort_link nodes Hnd) in Hk.
    pose proof (link_spec nodes nodes [] (registered nodes)
                  (incl_refl _) (linked_registered nodes)) as HL.
    destruct (link nodes (registered nodes)) as [tb|e].
    + destruct HL as [HL Hclosed].
      destruct (topoSort_cases nodes Hnd Hclosed) as [(res & Hres & _)|Hc];
        congruence.
    + destruct HL as (n & d & _ & _ & _ & ->). discriminate.
  - intros Hdup.
    destruct (first_repeated_id nodes Hdup) as (l1 & n & l2 & -> & Hnd & Hin).
    exists (id n). now apply topoSort_repeated_id.
Qed.

(** ** Dangling dependencies *)

Lemma link_deps_app node ds1 : forall ds2 tb,
  link_deps node (ds1 ++ ds2) tb =
  match link_deps node ds1 tb with
  | inl tb' => link_deps node ds2 tb'
  | inr e => inr e
  end.
Proof.
  induction ds1 as [|d ds1 IH]; intros ds2 tb; simpl; [reflexivity|].
  destruct (negb (JsMap.has d (byId tb))); [reflexivity | apply IH].
Qed.

Lemma link_app l1 : forall l2 tb,
  link (l1 ++ l2) tb =
  match link l1 tb with
  | inl tb' => link l2 tb'
  | inr e => inr e
  end.
Proof.
  induction l1 as [|n l1 IH]; intros l2 tb; simpl; [reflexivity|].
  destruct (link_deps n (deps n) tb); [apply IH | reflexivity].
Qed.

(** X3. With unique ids, the unknown-dependency error names the first
    offending entry in declaration order: the node [n] and the entry [d]
    of its [dependsOn] such that every entry of the nodes before [n], and
    every entry of [n] before [d], names a node of the graph, while [d]
    names none. *)
Theorem topoSort_reports_first_unknown_dependency
    (l1 l2 : list NodeSpec) (n : NodeSpec) (ds1 ds2 : list string)
    (d : string) :
  NoDup (ids (l1 ++ n :: l2)) ->
  (forall m x, In m l1 -> In x (deps m) -> In x (ids (l1 ++ n :: l2))) ->
  deps n = ds1 ++ d :: ds2 ->
  incl ds1 (ids (l1 ++ n :: l2)) ->
  ~ In d (ids (l1 ++ n :: l2)) ->
  topoSort (l1 ++ n :: l2) = inr (UnknownDependency (id n) d).
Proof.
  intros Hnd Hl1 Hdeps Hds1 Hd.
  set (nodes := l1 ++ n :: l2) in *.
  rewrite (topoSort_link nodes Hnd).
  unfold nodes at 1. rewrite link_app.
  assert (Hincl1 : incl l1 nodes).
  { intros x Hx. unfold nodes. apply in_or_app. now left. }
  pose proof (link_spec nodes l1 [] (registered nodes) Hincl1
                (linked_registered nodes)) as HL.
  destruct (link l1 (registered nodes)) as [tb1|e].
  - destruct HL as [HL _]. simpl. rewrite Hdeps, link_deps_app.
    assert (Hn : In (id n) (ids nodes)).
    { apply in_map. unfold nodes. apply in_or_app. right. now left. }
    pose proof (link_deps_spec nodes n Hn ds1 _ tb1 HL) as HD.
    destruct (link_deps n ds1 tb1) as [tb2|e].
    + destruct HD as [(Hby & _) _]. simpl.
      assert (Hhas : JsMap.has d (byId tb2) = false).
      { apply Bool.not_true_iff_false. intros Hh. apply Hd.
        apply has_true_iff in Hh. rewrite Hby in Hh.
        now rewrite (keys_map_id (fun n => n)) in Hh. }
      now rewrite Hhas.
    + destruct HD as (x & Hx & Hnot & _). exfalso. apply Hnot, Hds1, Hx.
  - destruct HL as (m & x & Hm & Hx & Hnot & _). exfalso.
    apply Hnot. eapply Hl1; eauto.
Qed.

Lemma topoSort_reports_first_unknown_dependency_witness :
  topoSort [mk "a" []; mk "b" ["a"; "ghost"; "phantom"]; mk "c" ["spectre"]]
  = inr (UnknownDependency "b" "ghost").
Proof.
  apply (topoSort_reports_first_unknown_dependency
           [mk "a" []] [mk "c" ["spectre"]]
           (mk "b" ["a"; "ghost"; "phantom"]) ["a"] ["phantom"] "ghost").
  - concrete_nodup.
  - intros m x [<-|[]] Hx. destruct Hx.
  - reflexivity.
  - intros x [<-|[]]. simpl. auto.
  - simpl. intuition discriminate.
Defined.

(** ** Cycles *)

Lemma seed_complete es k : In (k, 0%Z) es -> In k (seed es).
Proof.
  induction es as [|[k' d] es IH]; simpl; [tauto|].
  intros [Heq|Hin].
  - inversion Heq; subst. simpl. now left.
  - destruct (d =? 0)%Z; [right|]; auto.
Qed.

Lemma get_some_in {V : Type} (m : JsMap.t V) k v :
  JsMap.get k m = Some v -> In (k, v) m.
Proof.
  induction m as [|[k' v'] m IH]; simpl; [discriminate|].
  destruct (String.eqb k k') eqn:E.
  - apply String.eqb_eq in E. intros H. inversion H; subst. now left.
  - auto.
Qed.

(** Every id whose in-degree has reached 0 has been queued. *)
Lemma relax_queues_zeroes S : forall nbrs deg queue deg' queue',
  relax nbrs deg queue = inl (deg', queue') ->
  (forall k, JsMap.get k deg = Some 0%Z -> In k (S ++ queue)) ->
  forall k, JsMap.get k deg' = Some 0%Z -> In k (S ++ queue').
Proof.
  induction nbrs as [|x nbrs IH]; intros deg queue deg' queue' H Hz; simpl in H.
  - inversion H; subst. exact Hz.
  - destruct (degree x deg - 1 <? 0)%Z; [discriminate|].
    eapply IH; [exact H|]. intros k Hk.
    destruct (string_dec x k) as [->|Hne].
    + rewrite get_set_same in Hk. inversion Hk as [Hk'].
      rewrite Hk'. simpl. rewrite app_assoc. apply in_or_app. right. now left.
    + rewrite get_set_other in Hk by assumption.
      apply Hz in Hk. apply in_app_or in Hk. apply in_or_app.
      destruct Hk as [Hk|Hk]; auto. right.
      destruct (degree x deg - 1 =? 0)%Z; auto.
      apply in_or_app. now left.
Qed.

Lemma pending_positive E done k :
  pending E done k <> 0 -> exists d, In (k, d) E /\ ~ In d done.
Proof.
  unfold pending, cnt. intros H.
  destruct (filter _ E) as [|[a b] l] eqn:Ef; [contradiction|].
  assert (Hin : In (a, b) (filter
            (fun e => String.eqb (fst e) k && negb (mem (snd e) done)) E)).
  { rewrite Ef. now left. }
  apply filter_In in Hin. destruct Hin as [Hin Hp]. simpl in Hp.
  apply andb_prop in Hp. destruct Hp as [Ha Hb].
  apply String.eqb_eq in Ha. subst a. exists b. split; auto.
  apply mem_false_iff. now destruct (mem b done).
Qed.

Section KahnCompleteness.

Variable nodes : list NodeSpec.
Variable tb : tables.

Hypothesis ids_unique : NoDup (ids nodes).
Hypothesis tables_linked : linked nodes (edges nodes) tb.

(** The queue loop ends in a state that satisfies its invariant, with
    every id of in-degree 0 dequeued. *)
Lemma drain_final : forall fuel deg queue res,
  drain_inv nodes (edges nodes) deg queue res ->
  (forall k, JsMap.get k deg = Some 0%Z -> In k (ids res ++ queue)) ->
  List.length nodes <= List.length res + fuel ->
  exists res' deg',
    drain fuel tb deg queue res = inl res' /\
    drain_inv nodes (edges nodes) deg' [] res' /\
    (forall k, JsMap.get k deg' = Some 0%Z -> In k (ids res')).
Proof.
  induction fuel as [|fuel IH]; intros deg queue res HI Hz Hfuel;
    pose proof HI as HI0;
    destruct HI as (Hres & Hnd & Hincl & Hdeg & Hzero & Hord);
    destruct queue as [|k queue]; simpl.
  - exists res, deg. repeat split; auto.
    intros k Hk. apply Hz in Hk. now rewrite app_nil_r in Hk.
  - exfalso. pose proof (NoDup_incl_length Hnd Hincl) as Hlen.
    rewrite length_app in Hlen. unfold ids in Hlen.
    rewrite !length_map in Hlen. simpl in Hlen. lia.
  - exists res, deg. repeat split; auto.
    intros k Hk. apply Hz in Hk. now rewrite app_nil_r in Hk.
  - assert (Hk : In k (ids nodes)).
    { apply Hincl, in_or_app. right. now left. }
    assert (Hfresh : ~ In k (ids res)).
    { intros Hin. apply NoDup_remove_2 in Hnd. apply Hnd.
      apply in_or_app. now left. }
    destruct tables_linked as (Hby & _ & _ & Hadj).
    pose proof Hk as Hk'. unfold ids in Hk'. apply in_map_iff in Hk'.
    destruct Hk' as (node & Hid & Hnode). subst k.
    rewrite Hby, (get_byId_registered nodes node ids_unique Hnode).
    unfold dependents. rewrite (Hadj _ Hk).
    destruct (relax_spec nodes (ids res) (id node) Hfresh
                (adj_of (edges nodes) (id node)) [] deg queue eq_refl)
      as (deg' & queue' & Hrelax & HJ).
    { repeat split; auto.
      intros k Hk0. rewrite (Hdeg k Hk0). simpl. f_equal. lia. }
    rewrite Hrelax.
    pose proof (relax_queues_zeroes (ids res ++ [id node]) _ _ _ _ _ Hrelax)
      as Hz'.
    destruct HJ as (Hnd' & Hincl' & Hdeg' & Hzero').
    apply IH.
    + repeat split.
      * intros x Hx. apply in_app_or in Hx.
        destruct Hx as [Hx|[<-|[]]]; auto.
      * rewrite ids_snoc, <- app_assoc. exact Hnd'.
      * rewrite ids_snoc, <- app_assoc. exact Hincl'.
      * intros k Hk0. rewrite (Hdeg' k Hk0), ids_snoc, count_adj_of.
        pose proof (pending_snoc (edges nodes) (ids res) (id node) k Hfresh).
        f_equal. lia.
      * intros x Hx. apply Hzero'.
        now rewrite ids_snoc, <- app_assoc in Hx.
      * apply deps_before_snoc; auto.
        intros D HD.
        assert (Hp : pending (edges nodes) (ids res) (id node) = 0).
        { assert (Hz0 : JsMap.get (id node) deg = Some 0%Z).
          { apply Hzero, in_or_app. right. now left. }
          rewrite (Hdeg _ Hk) in Hz0. inversion Hz0. lia. }
        assert (HinD : In D (ids res)).
        { apply (pending_zero (edges nodes) _ _ Hp). apply in_edges. eauto. }
        unfold ids in HinD. apply in_map_iff in HinD.
        destruct HinD as (M & HM & HinM). eauto.
    + rewrite ids_snoc. apply Hz'. intros k Hk0. apply Hz in Hk0.
      rewrite <- app_assoc. exact Hk0.
    + rewrite length_app. simpl. lia.
Qed.

End KahnCompleteness.

(** A relation under which every element of a finite non-empty set has a
    successor in the set has a cycle. *)
Section Pigeonhole.

Variable R : string -> string -> Prop.
Variable S : list string.

Hypothesis successor : forall x, In x S -> exists y, In y S /\ R x y.

Lemma rwalk_exists x0 : In x0 S ->
  forall n, exists w,
    List.length w = Datatypes.S n /\ rwalk R w /\ incl w S.
Proof.
  intros Hx0. induction n as [|n IH].
  - exists [x0]. split; [|split]; simpl; auto.
    intros x [<-|[]]. assumption.
  - destruct IH as (w & Hlen & Hw & Hincl).
    destruct w as [|y rest]; [discriminate|].
    destruct (successor y) as (z & Hz & Hyz).
    { apply Hincl. now left. }
    exists (z :: y :: rest). split; [|split].
    + simpl in *. lia.
    + simpl. split; assumption.
    + intros x [<-|Hx]; auto.
Qed.

Lemma rwalk_suffix l1 : forall w, rwalk R (l1 ++ w) -> rwalk R w.
Proof.
  induction l1 as [|a l1 IH]; intros w H; simpl in *; auto.
  destruct (l1 ++ w) as [|b t] eqn:E.
  - destruct l1; [simpl in E; subst; exact I | discriminate].
  - apply IH. rewrite E. tauto.
Qed.

Lemma rwalk_reaches l2 : forall y x l3,
  rwalk R (y :: l2 ++ x :: l3) -> clos_trans string R x y.
Proof.
  induction l2 as [|z l2 IH]; intros y x l3 H.
  - simpl in H. apply t_step. tauto.
  - change (rwalk R (y :: z :: l2 ++ x :: l3)) in H.
    destruct H as [Hzy H]. apply t_trans with z.
    + eapply IH. exact H.
    + now apply t_step.
Qed.

Lemma repeated_element (w : list string) :
  ~ NoDup w -> exists a l1 l2 l3, w = l1 ++ a :: l2 ++ a :: l3.
Proof.
  induction w as [|a w IH]; intros Hdup.
  - exfalso. apply Hdup. constructor.
  - destruct (in_dec string_dec a w) as [Hin|Hout].
    + apply in_split in Hin. destruct Hin as (l2 & l3 & ->).
      exists a, [], l2, l3. reflexivity.
    + destruct IH as (b & l1 & l2 & l3 & ->).
      { intros Hnd. apply Hdup. now constructor. }
      exists b, (a :: l1), l2, l3. reflexivity.
Qed.

Lemma finite_successors_cycle x0 :
  In x0 S -> exists a, clos_trans string R a a.
Proof.
  intros Hx0.
  destruct (rwalk_exists x0 Hx0 (List.length S)) as (w & Hlen & Hw & Hincl).
  destruct (repeated_element w) as (a & l1 & l2 & l3 & ->).
  { intros Hnd. pose proof (NoDup_incl_length Hnd Hincl). lia. }
  exists a. apply rwalk_suffix in Hw. eapply rwalk_reaches. exact Hw.
Qed.

End Pigeonhole.

Lemma not_all_dequeued (l1 l2 : list string) :
  NoDup l1 -> NoDup l2 -> incl l2 l1 ->
  List.length l2 <> List.length l1 ->
  exists x, In x l1 /\ ~ In x l2.
Proof.
  intros H1 H2 Hincl Hlen.
  assert (Hnot : ~ incl l1 l2).
  { intros Hi. pose proof (NoDup_incl_length H1 Hi).
    pose proof (NoDup_incl_length H2 Hincl). lia. }
  clear - Hnot. induction l1 as [|x l1 IH].
  - exfalso. apply Hnot. intros x [].
  - destruct (in_dec string_dec x l2) as [Hin|Hout].
    + destruct IH as (y & Hy & Hny).
      { intros Hi. apply Hnot. intros z [<-|Hz]; auto. }
      exists y. split; [now right | assumption].
    + exists x. split; [now left | assumption].
Qed.

Lemma topoSort_cyclic_inv nodes :
  topoSort nodes = inr CyclicGraph ->
  NoDup (ids nodes) /\ deps_closed nodes.
Proof.
  intros H.
  assert (Hnd : NoDup (ids nodes)).
  { destruct (ListDec.NoDup_dec string_dec (ids nodes)) as [|Hdup]; auto.
    destruct (first_repeated_id nodes Hdup) as (l1 & n & l2 & -> & Hl1 & Hin).
    rewrite (topoSort_repeated_id l1 l2 n Hl1 Hin) in H.
    discriminate. }
  split; auto.
  rewrite (topoSort_link nodes Hnd) in H.
  pose proof (link_spec nodes nodes [] (registered nodes)
                (incl_refl _) (linked_registered nodes)) as HL.
  destruct (link nodes (registered nodes)) as [tb|e].
  - now destruct HL.
  - destruct HL as (n & d & _ & _ & _ & ->). discriminate.
Qed.

Lemma cyclic_error_has_cycle nodes :
  topoSort nodes = inr CyclicGraph -> has_cycle nodes.
Proof.
  intros H. destruct (topoSort_cyclic_inv nodes H) as [Hnd Hclosed].
  rewrite (topoSort_link nodes Hnd) in H.
  pose proof (link_spec nodes nodes [] (registered nodes)
                (incl_refl _) (linked_registered nodes)) as HL.
  destruct (link nodes (registered nodes)) as [tb|e];
    [|destruct HL as (n & d & _ & _ & _ & ->); discriminate].
  destruct HL as [HL _]. simpl in HL.
  destruct (drain_final nodes tb Hnd HL (List.length nodes) (inDegree tb)
              (seed (JsMap.entries (inDegree tb))) [])
    as (res & deg & Hdrain & HI & Hz).
  { now apply drain_inv_initial. }
  { intros k Hk. simpl. apply seed_complete. now apply get_some_in. }
  { simpl. lia. }
  rewrite Hdrain in H.
  destruct (Nat.eqb_spec (List.length res) (List.length nodes)) as [|Hlen];
    simpl in H; [discriminate|].
  destruct HI as (Hres & Hnd' & Hincl & Hdeg & _ & _).
  rewrite app_nil_r in Hnd', Hincl.
  destruct (not_all_dequeued (ids nodes) (ids res) Hnd Hnd' Hincl)
    as (x0 & Hx0 & Hx0').
  { unfold ids. now rewrite !length_map. }
  set (S := filter (fun k => negb (mem k (ids res))) (ids nodes)).
  assert (HS : forall x, In x S <-> In x (ids nodes) /\ ~ In x (ids res)).
  { intros x. unfold S. rewrite filter_In, negb_true_iff, mem_false_iff.
    tauto. }
  apply (finite_successors_cycle (depends_on nodes) S) with x0.
  - intros x Hx. apply HS in Hx. destruct Hx as [Hx Hout].
    destruct (pending_positive (edges nodes) (ids res) x) as (d & Hd & Hdout).
    { intros Hp. apply Hout, Hz. rewrite (Hdeg x Hx), Hp. reflexivity. }
    apply in_edges in Hd. exists d. split; [|exact Hd].
    apply HS. split; auto.
    destruct Hd as (n & Hn & _ & Hdn). eapply Hclosed; eauto.
  - apply HS. auto.
Qed.

(** X4. The cycle error is never a false alarm: when [topoSort] throws
    it, the ids are unique, every dependency names a node, and some node
    reaches itself along dependency edges. *)
Theorem topoSort_cycle_error_is_genuine (nodes : list NodeSpec) :
  topoSort nodes = inr CyclicGraph ->
  NoDup (ids nodes) /\ deps_closed nodes /\ has_cycle nodes.
Proof.
  intros H. destruct (topoSort_cyclic_inv nodes H) as [Hnd Hclosed].
  repeat split; auto. now apply cyclic_error_has_cycle.
Qed.

Lemma topoSort_cycle_error_is_genuine_witness :
  NoDup (ids two_cycle) /\ deps_closed two_cycle /\ has_cycle two_cycle.
Proof.
  apply (topoSort_cycle_error_is_genuine two_cycle). reflexivity.
Defined.

Lemma topoSort_returns_iff nodes :
  (exists res, topoSort nodes = inl res) <->
  NoDup (ids nodes) /\ deps_closed nodes /\ ~ has_cycle nodes.
Proof.
  split.
  - intros [res H]. destruct (topoSort_inl _ _ H) as [Hnd Hclosed].
    destruct (topoSort_sound _ _ H) as [Hperm Hord].
    repeat split; auto. eapply ordered_acyclic; eauto.
  - intros (Hnd & Hclosed & Hacyclic).
    destruct (topoSort_cases nodes Hnd Hclosed) as [(res & H & _)|H]; eauto.
    exfalso. apply Hacyclic. now apply cyclic_error_has_cycle.
Qed.

(** X5. [topoSort] returns an order exactly for the graphs that have
    unique ids, no dangling dependency and no dependency cycle. *)
Theorem topoSort_returns_exactly_on_dags (nodes : list NodeSpec) :
  (exists res, topoSort nodes = inl res) <->
  NoDup (ids nodes) /\ deps_closed nodes /\ ~ has_cycle nodes.
Proof. exact (topoSort_returns_iff nodes). Qed.

(** Cycles, dangling entries and repeated ids do not depend on the order
    in which the nodes are declared. *)
Lemma well_formed_perm nodes nodes' :
  Permutation nodes nodes' ->
  NoDup (ids nodes) /\ deps_closed nodes /\ ~ has_cycle nodes ->
  NoDup (ids nodes') /\ deps_closed nodes' /\ ~ has_cycle nodes'.
Proof.
  intros Hperm (Hnd & Hclosed & Hacyclic).
  assert (Hin : forall n, In n nodes' -> In n nodes).
  { intros n Hn. eapply Permutation_in; [apply Permutation_sym|]; eauto. }
  repeat split.
  - eapply Permutation_NoDup; [|exact Hnd]. now apply Permutation_map.
  - intros n d Hn Hd.
    eapply Permutation_in; [apply Permutation_map; exact Hperm|].
    eapply Hclosed; eauto.
  - intros [a Ha]. apply Hacyclic. exists a.
    eapply clos_trans_ind with (R := depends_on nodes')
                               (P := clos_trans string (depends_on nodes));
      [| |exact Ha].
    + intros x y (n & Hn & Hid & Hd). apply t_step. exists n. auto.
    + intros x y z _ Hxy _ Hyz. now apply t_trans with y.
Qed.

(** X6. Whether [topoSort] returns or throws does not depend on the order
    in which the nodes are declared. *)
Theorem topoSort_success_ignores_declaration_order
    (nodes nodes' : list NodeSpec) :
  Permutation nodes nodes' ->
  (exists res, topoSort nodes = inl res) ->
  exists res', topoSort nodes' = inl res'.
Proof.
  intros Hperm H. apply topoSort_returns_iff.
  apply (well_formed_perm nodes nodes' Hperm).
  now apply topoSort_returns_iff.
Qed.

Lemma topoSort_success_ignores_declaration_order_witness :
  exists res', topoSort (rev diamond) = inl res'.
Proof.
  apply (topoSort_success_ignores_declaration_order diamond (rev diamond)).
  - apply Permutation_rev.
  - eexists. reflexivity.
Defined.

(** ** The order among nodes that are ready together *)

Lemma jsmap_from_keys (m : JsMap.t Z) (f : string -> Z) :
  NoDup (JsMap.keys m) ->
  (forall k, In k (JsMap.keys m) -> JsMap.get k m = Some (f k)) ->
  m = map (fun k => (k, f k)) (JsMap.keys m).
Proof.
  induction m as [|[k v] m IH]; simpl; intros Hnd Hget; [reflexivity|].
  inversion Hnd as [|? ? Hk Hrest]; subst.
  pose proof (Hget k (or_introl eq_refl)) as Hk0.
  rewrite String.eqb_refl in Hk0. inversion Hk0; subst.
  f_equal. apply IH; auto.
  intros k' Hk'. specialize (Hget k' (or_intror Hk')).
  destruct (String.eqb k' k) eqn:E; auto.
  apply String.eqb_eq in E. subst. contradiction.
Qed.

Lemma seed_map (f : string -> Z) ks :
  seed (map (fun k => (k, f k)) ks) = filter (fun k => (f k =? 0)%Z) ks.
Proof.
  induction ks as [|k ks IH]; simpl; [reflexivity|].
  destruct (f k =? 0)%Z; now rewrite IH.
Qed.

Lemma pending_app E1 E2 done k :
  pending (E1 ++ E2) done k = pending E1 done k + pending E2 done k.
Proof. unfold pending, cnt. now rewrite filter_app, length_app. Qed.

Lemma pending_own_edges a ds k :
  pending (map (fun d => (a, d)) ds) [] k =
  if String.eqb a k then List.length ds else 0.
Proof.
  unfold pending, cnt. induction ds as [|d ds IH]; simpl.
  - now destruct (String.eqb a k).
  - destruct (String.eqb a k); simpl in *; [now rewrite IH | exact IH].
Qed.

Lemma pending_absent nodes done k :
  ~ In k (ids nodes) -> pending (edges nodes) done k = 0.
Proof.
  intros Hk. unfold pending, cnt.
  destruct (filter _ (edges nodes)) as [|[a b] l] eqn:Ef; [reflexivity|].
  exfalso.
  assert (Hin : In (a, b) (filter
            (fun e => String.eqb (fst e) k && negb (mem (snd e) done))
            (edges nodes))).
  { rewrite Ef. now left. }
  apply filter_In in Hin. destruct Hin as [Hin Hp]. simpl in Hp.
  apply andb_prop in Hp. destruct Hp as [Ha _].
  apply String.eqb_eq in Ha. subst a.
  apply in_edges in Hin. destruct Hin as (n & Hn & <- & _).
  apply Hk. now apply in_map.
Qed.

Lemma pending_is_length nodes n :
  NoDup (ids nodes) -> In n nodes ->
  pending (edges nodes) [] (id n) = List.length (deps n).
Proof.
  induction nodes as [|m nodes IH]; simpl; [tauto|].
  intros Hnd Hin. inversion Hnd as [|? ? Hm Hrest]; subst.
  change (edges (m :: nodes))
    with (map (fun d => (id m, d)) (deps m) ++ edges nodes).
  rewrite pending_app, pending_own_edges.
  destruct Hin as [->|Hin].
  - rewrite String.eqb_refl, pending_absent by assumption. lia.
  - rewrite IH by assumption.
    destruct (String.eqb (id m) (id n)) eqn:E; [|reflexivity].
    apply String.eqb_eq in E. exfalso. apply Hm. rewrite E.
    now apply in_map.
Qed.

Lemma filter_ids (p : string -> bool) (q : NodeSpec -> bool) l :
  (forall m, In m l -> p (id m) = q m) ->
  filter p (map id l) = map id (filter q l).
Proof.
  induction l as [|m l IH]; intros H; simpl; [reflexivity|].
  rewrite (H m (or_introl eq_refl)).
  destruct (q m); simpl; rewrite IH; auto;
    intros x Hx; apply H; now right.
Qed.

Lemma seed_is_roots nodes tb :
  NoDup (ids nodes) -> linked nodes (edges nodes) tb ->
  seed (JsMap.entries (inDegree tb)) = ids (filter is_root nodes).
Proof.
  intros Hnd (_ & Hkeys & Hdeg & _). unfold JsMap.entries.
  rewrite (jsmap_from_keys (inDegree tb)
             (fun k => Z.of_nat (pending (edges nodes) [] k))).
  - rewrite seed_map, Hkeys. unfold ids. apply filter_ids.
    intros m Hm. rewrite pending_is_length by assumption.
    unfold is_root. destruct (deps m); reflexivity.
  - now rewrite Hkeys.
  - intros k Hk. apply Hdeg. now rewrite <- Hkeys.
Qed.

Lemma relax_queue_extends : forall nbrs deg queue deg' queue',
  relax nbrs deg queue = inl (deg', queue') ->
  exists new, queue' = queue ++ new.
Proof.
  induction nbrs as [|x nbrs IH]; intros deg queue deg' queue' H; simpl in H.
  - inversion H; subst. exists []. now rewrite app_nil_r.
  - destruct (degree x deg - 1 <? 0)%Z; [discriminate|].
    apply IH in H. destruct H as [new ->].
    destruct (degree x deg - 1 =? 0)%Z; eauto.
    exists (x :: new). now rewrite <- app_assoc.
Qed.

Lemma get_registered_id nodes k node :
  JsMap.get k (map (fun n => (id n, n)) nodes) = Some node -> id node = k.
Proof.
  induction nodes as [|m nodes IH]; simpl; [discriminate|].
  destruct (String.eqb k (id m)) eqn:E; auto.
  apply String.eqb_eq in E. intros H. inversion H; subst. auto.
Qed.

(** The queue is served first in, first out. *)
Lemma drain_serves_queue_first nodes tb :
  byId tb = map (fun n => (id n, n)) nodes ->
  forall fuel deg queue res res',
    drain fuel tb deg queue res = inl res' ->
    exists tail, ids res' = ids res ++ queue ++ tail.
Proof.
  intros Hby. induction fuel as [|fuel IH]; intros deg queue res res' H;
    destruct queue as [|k queue]; simpl in H.
  - inversion H; subst. exists []. now rewrite !app_nil_r.
  - discriminate.
  - inversion H; subst. exists []. now rewrite !app_nil_r.
  - destruct (JsMap.get k (byId tb)) as [node|] eqn:Eg; [|discriminate].
    rewrite Hby in Eg. apply get_registered_id in Eg. subst k.
    destruct (relax _ deg queue) as [[deg' queue']|e] eqn:Er; [|discriminate].
    destruct (relax_queue_extends _ _ _ _ _ Er) as [new ->].
    apply IH in H. destruct H as [tail ->].
    exists (new ++ tail). unfold ids. rewrite map_app. simpl.
    now rewrite <- !app_assoc.
Qed.

Lemma same_ids_same_nodes nodes : NoDup (ids nodes) ->
  forall l1 l2, incl l1 nodes -> incl l2 nodes -> ids l1 = ids l2 -> l1 = l2.
Proof.
  intros Hnd. induction l1 as [|a l1 IH]; intros [|b l2] H1 H2 Heq;
    try discriminate; [reflexivity|].
  simpl in Heq. inversion Heq as [[Hab Hrest]].
  f_equal.
  - apply (node_of_id nodes); auto; [apply H1 | apply H2]; now left.
  - apply IH; auto; intros x Hx; [apply H1 | apply H2]; now right.
Qed.

Lemma in_firstn {A : Type} n (l : list A) x : In x (firstn n l) -> In x l.
Proof.
  intros H. rewrite <- (firstn_skipn n l). apply in_or_app. now left.
Qed.

Lemma in_skipn {A : Type} n (l : list A) x : In x (skipn n l) -> In x l.
Proof.
  intros H. rewrite <- (firstn_skipn n l). apply in_or_app. now right.
Qed.

Lemma roots_first nodes res :
  topoSort nodes = inl res ->
  exists tail,
    res = filter is_root nodes ++ tail /\
    Forall (fun n => deps n <> []) tail.
Proof.
  intros H. destruct (topoSort_inl _ _ H) as [Hnd _].
  destruct (topoSort_sound _ _ H) as [Hperm _].
  rewrite (topoSort_link nodes Hnd) in H.
  pose proof (link_spec nodes nodes [] (registered nodes)
                (incl_refl _) (linked_registered nodes)) as HL.
  destruct (link nodes (registered nodes)) as [tb|e]; [|discriminate].
  destruct HL as [HL _]. simpl in HL.
  destruct (drain _ tb _ _ []) as [res0|e] eqn:Hdrain; [|discriminate].
  destruct (negb _); [discriminate|]. inversion H; subst res0. clear H.
  pose proof HL as (Hby & _).
  destruct (drain_serves_queue_first nodes tb Hby _ _ _ _ _ Hdrain)
    as [idtail Hids].
  rewrite (seed_is_roots nodes tb Hnd HL) in Hids. simpl in Hids.
  set (roots := filter is_root nodes) in *.
  assert (Hres_nd : NoDup (ids res)).
  { eapply Permutation_NoDup; [|exact Hnd]. now apply Permutation_map. }
  assert (Hres_in : incl res nodes).
  { intros x Hx. eapply Permutation_in; [apply Permutation_sym|]; eauto. }
  assert (Hfirst : firstn (List.length roots) res = roots).
  { apply (same_ids_same_nodes nodes Hnd).
    - intros x Hx. apply Hres_in. eapply in_firstn. exact Hx.
    - intros x Hx. unfold roots in Hx. apply filter_In in Hx. tauto.
    - unfold ids. rewrite <- firstn_map. fold (ids res). rewrite Hids.
      replace (List.length roots) with (List.length (ids roots) + 0)
        by (unfold ids; rewrite length_map; lia).
      rewrite firstn_app_2. simpl. now rewrite app_nil_r. }
  exists (skipn (List.length roots) res). split.
  - rewrite <- Hfirst at 1. symmetry. apply firstn_skipn.
  - apply Forall_forall. intros n Hn Hdeps.
    assert (Hroot : In n roots).
    { unfold roots. apply filter_In. split.
      - apply Hres_in. eapply in_skipn. exact Hn.
      - unfold is_root. now rewrite Hdeps. }
    rewrite <- (firstn_skipn (List.length roots) res) in Hres_nd.
    rewrite Hfirst in Hres_nd. unfold ids in Hres_nd.
    rewrite map_app in Hres_nd.
    apply in_split in Hn. destruct Hn as (t1 & t2 & Ht).
    rewrite Ht, map_app in Hres_nd. simpl in Hres_nd.
    rewrite app_assoc in Hres_nd. apply NoDup_remove_2 in Hres_nd.
    apply Hres_nd. apply in_or_app. left. apply in_or_app. left.
    now apply in_map.
Qed.

(** X7. The nodes without dependencies come first in the order that
    [topoSort] returns, in the order of their declaration; every node
    after them has a dependency. *)
Theorem topoSort_puts_roots_first_in_declaration_order
    (nodes res : list NodeSpec) :
  topoSort nodes = inl res ->
  exists tail,
    res = filter is_root nodes ++ tail /\
    Forall (fun n => deps n <> []) tail.
Proof. exact (roots_first nodes res). Qed.

Lemma topoSort_puts_roots_first_in_declaration_order_witness :
  exists tail,
    [mk "r1" []; mk "r2" []; mk "x" ["r2"]; mk "y" ["r1"; "r2"]]
      = filter is_root forest ++ tail /\
    Forall (fun n => deps n <> []) tail.
Proof.
  apply (topoSort_puts_roots_first_in_declaration_order forest).
  reflexivity.
Defined.

(** ** What a node's execution writes *)

Lemma executeNode_inl_full h baseDir node state tr state' tr' :
  executeNode h baseDir node state tr = (inl state', tr') ->
  exists w f i o,
    wasm node = Some (JString w) /\
    module_at h (path_resolve h baseDir w) f /\
    resolveInput node state = inl i /\
    f i = Some o /\
    state' = JsMap.set (id node)
               {| input := i; output := o; dependencies := deps node |}
               state.
Proof.
  rewrite executeNode_unfold.
  destruct (wasm node) as [[]|]; try discriminate. simpl.
  destruct (readFile h _) as [binary|] eqn:Er; [|discriminate].
  destruct (instantiate h binary) as [exports|] eqn:Ei; [|discriminate].
  destruct (JsMap.get "main" exports) as [[entry|]|] eqn:Em;
    try discriminate.
  destruct (resolveInput node state) as [i|e] eqn:Ein; [|discriminate].
  destruct (entry i) as [o|] eqn:Eo; [|discriminate].
  intros H. inversion H; subst.
  exists s, entry, i, o. repeat split; auto.
  exists binary, exports. auto.
Qed.

Lemma keys_set_fresh {V : Type} k (v : V) m :
  ~ In k (JsMap.keys m) -> JsMap.keys (JsMap.set k v m) = JsMap.keys m ++ [k].
Proof.
  intros H. apply get_none_iff in H. rewrite set_fresh by assumption.
  unfold JsMap.keys. now rewrite map_app.
Qed.

(** X8. A successful [executeNode] writes one record, under the id of the
    node: its [input] is what [resolveInput] gave on the state before, its
    [dependencies] are the node's [dependsOn]; the records of the other
    ids are untouched; the key keeps its place if it was present and is
    appended otherwise. *)
Theorem executeNode_writes_only_its_own_record
    (h : Host) (baseDir : string) (node : NodeSpec)
    (state state' : ExecutionState) (tr tr' : list event) :
  executeNode h baseDir node state tr = (inl state', tr') ->
  (exists record,
     JsMap.get (id node) state' = Some record /\
     resolveInput node state = inl (input record) /\
     dependencies record = deps node) /\
  (forall k, k <> id node -> JsMap.get k state' = JsMap.get k state) /\
  (In (id node) (JsMap.keys state) ->
     JsMap.keys state' = JsMap.keys state) /\
  (~ In (id node) (JsMap.keys state) ->
     JsMap.keys state' = JsMap.keys state ++ [id node]).
Proof.
  intros H. apply executeNode_inl_full in H.
  destruct H as (w & f & i & o & _ & _ & Hin & _ & ->).
  repeat split.
  - eexists. split; [apply get_set_same|]. simpl. auto.
  - intros k Hk. apply get_set_other. congruence.
  - apply keys_set_present.
  - apply keys_set_fresh.
Qed.

Lemma executeNode_writes_only_its_own_record_witness :
  JsMap.get "a"
    [("a", {| input := 7; output := 8; dependencies := [] |});
     ("fetchUser", {| input := 0; output := 1001; dependencies := [] |})]
  = JsMap.get "a"
      [("a", {| input := 7; output := 8; dependencies := [] |})].
Proof.
  apply (proj1 (proj2 (executeNode_writes_only_its_own_record
           demo_host "/app"
           {| id := "fetchUser";
              wasm := Some (JString "nodes/fetchUser.wasm");
              dependsOn := None |}
           [("a", {| input := 7; output := 8; dependencies := [] |})]
           _ [] _ eq_refl))).
  discriminate.
Defined.

(** ** The records of a finished run *)

Lemma resolveInput_stable node (state more : ExecutionState) v :
  resolveInput node state = inl v ->
  resolveInput node (state ++ more) = inl v.
Proof.
  destruct (deps node) as [|d0 ds] eqn:Ed.
  - unfold resolveInput. now rewrite Ed.
  - destruct (exists_last (l := d0 :: ds)) as (others & lastDep & Heq);
      [discriminate|].
    rewrite <- Ed in Heq. rewrite !(resolveInput_last _ _ _ _ Heq).
    destruct (JsMap.get lastDep state) as [r|] eqn:Eg; [|discriminate].
    now rewrite (get_app_present _ _ _ more Eg).
Qed.

Lemma executeAll_records h baseDir : forall rest state tr state' tr',
  executeAll h baseDir rest state tr = (inl state', tr') ->
  NoDup (JsMap.keys state ++ ids rest) ->
  forall n, In n rest ->
    exists record,
      JsMap.get (id n) state' = Some record /\
      dependencies record = deps n /\
      resolveInput n state' = inl (input record) /\
      exists w f,
        wasm n = Some (JString w) /\
        module_at h (path_resolve h baseDir w) f /\
        f (input record) = Some (output record).
Proof.
  induction rest as [|node rest IH]; intros state tr state' tr' H Hnd n Hn.
  - destruct Hn.
  - rewrite executeAll_cons in H.
    destruct (executeNode h baseDir node state tr) as [[st1|e] tr1] eqn:En;
      [|discriminate].
    apply executeNode_inl_full in En.
    destruct En as (w & f & i & o & Hw & Hmod & Hin & Hf & ->).
    assert (Hfresh : JsMap.get (id node) state = None).
    { apply get_none_iff. intros Hi. simpl in Hnd.
      apply NoDup_remove_2 in Hnd. apply Hnd, in_or_app. now left. }
    rewrite set_fresh in H by assumption.
    assert (Hnd1 : NoDup (JsMap.keys (state ++
                [(id node, {| input := i; output := o;
                              dependencies := deps node |})]) ++ ids rest)).
    { unfold JsMap.keys. rewrite map_app. simpl.
      rewrite <- app_assoc. exact Hnd. }
    destruct Hn as [<-|Hn].
    + destruct (executeAll_appends h _ _ _ _ _ _ H Hnd1) as (added & -> & _).
      exists {| input := i; output := o; dependencies := deps node |}.
      simpl. repeat split.
      * apply get_app_present. rewrite get_app_fresh by assumption.
        simpl. now rewrite String.eqb_refl.
      * rewrite <- app_assoc. now apply resolveInput_stable.
      * exists w, f. auto.
    + eapply IH; eauto.
Qed.

Lemma loadGraph_inl h graphPath tr graph :
  fst (loadGraph h graphPath tr) = inl graph ->
  serves h graphPath graph /\
  loadGraph h graphPath tr = (inl graph, tr ++ [ReadFile graphPath]).
Proof.
  rewrite loadGraph_unfold.
  destruct (readFile h graphPath) as [payload|] eqn:Hread; [|discriminate].
  destruct (JSON_parse h payload) as [doc|] eqn:Hparse; [|discriminate].
  simpl. intros H.
  assert (Hdoc : doc = graph).
  { destruct doc; try discriminate;
      try (destruct (nodes_of _) as [[]|]; try discriminate;
           now inversion H). }
  subst doc. split; [exists payload; auto|]. now rewrite H.
Qed.

Lemma runGraph_inl h graphPath tr state :
  fst (runGraph h graphPath tr) = inl state ->
  exists doc nodes ordered tr',
    serves h graphPath doc /\
    typed_nodes doc = inl nodes /\
    topoSort nodes = inl ordered /\
    executeAll h (path_dirname h graphPath) ordered JsMap.empty
               (tr ++ [ReadFile graphPath]) = (inl state, tr').
Proof.
  rewrite runGraph_unfold. intros H.
  destruct (loadGraph h graphPath tr) as [[doc|e] tr1] eqn:Hload;
    [|discriminate].
  destruct (loadGraph_inl h graphPath tr doc) as [Hs Hl].
  { now rewrite Hload. }
  rewrite Hload in Hl. inversion Hl; subst tr1.
  destruct (typed_nodes doc) as [nodes|e] eqn:Htyped; [|discriminate].
  destruct (topoSort nodes) as [ordered|e] eqn:Hsort; [|discriminate].
  destruct (executeAll h _ ordered _ _) as [[st|e] tr'] eqn:Hall;
    simpl in H; [|discriminate].
  inversion H; subst st.
  exists doc, nodes, ordered, tr'. auto.
Qed.

Lemma run_records h graphPath tr state :
  fst (runGraph h graphPath tr) = inl state ->
  exists doc nodes,
    serves h graphPath doc /\
    typed_nodes doc = inl nodes /\
    forall n, In n nodes ->
      exists record,
        JsMap.get (id n) state = Some record /\
        dependencies record = deps n /\
        resolveInput n state = inl (input record) /\
        exists w f,
          wasm n = Some (JString w) /\
          module_at h (path_resolve h (path_dirname h graphPath) w) f /\
          f (input record) = Some (output record).
Proof.
  intros H. destruct (runGraph_inl _ _ _ _ H)
    as (doc & nodes & ordered & tr' & Hs & Ht & Hsort & Hall).
  exists doc, nodes. repeat split; auto.
  intros n Hn.
  destruct (topoSort_inl _ _ Hsort) as [Hnd _].
  destruct (topoSort_sound _ _ Hsort) as [Hperm _].
  eapply (executeAll_records h _ ordered); eauto.
  - simpl. eapply Permutation_NoDup; [|exact Hnd]. now apply Permutation_map.
  - eapply Permutation_in; eauto.
Qed.

(** X9. In the state a run returns, every node of the graph has a record
    whose [dependencies] are its [dependsOn] and whose [input] is what
    [resolveInput] gives on that final state: 0 for a node without
    dependencies, and otherwise the [output] that the final state holds
    for its last dependency. *)
Theorem final_state_inputs_follow_last_dependencies
    (h : Host) (graphPath : string) (tr : list event) (state : ExecutionState) :
  fst (runGraph h graphPath tr) = inl state ->
  exists doc nodes,
    serves h graphPath doc /\
    typed_nodes doc = inl nodes /\
    forall n, In n nodes ->
      exists record,
        JsMap.get (id n) state = Some record /\
        dependencies record = deps n /\
        resolveInput n state = inl (input record).
Proof.
  intros H. destruct (run_records _ _ _ _ H) as (doc & nodes & Hs & Ht & Hrec).
  exists doc, nodes. repeat split; auto.
  intros n Hn. destruct (Hrec n Hn) as (r & Hg & Hd & Hi & _). eauto.
Qed.

Lemma final_state_inputs_follow_last_dependencies_witness :
  exists doc nodes,
    serves demo_host "/app/graph.json" doc /\
    typed_nodes doc = inl nodes /\
    forall n, In n nodes ->
      exists record,
        JsMap.get (id n) pipeline_state = Some record /\
        dependencies record = deps n /\
        resolveInput n pipeline_state = inl (input record).
Proof.
  apply (final_state_inputs_follow_last_dependencies
           demo_host "/app/graph.json" []).
  reflexivity.
Defined.

(** X10. In the state a run returns, the [output] of every node's record
    is what the function exported as [main] by the module at the node's
    [wasm] path, resolved against the directory of the graph file, returns
    on the record's [input]. *)
Theorem final_state_outputs_come_from_the_modules
    (h : Host) (graphPath : string) (tr : list event) (state : ExecutionState) :
  fst (runGraph h graphPath tr) = inl state ->
  exists doc nodes,
    serves h graphPath doc /\
    typed_nodes doc = inl nodes /\
    forall n, In n nodes ->
      exists record w f,
        JsMap.get (id n) state = Some record /\
        wasm n = Some (JString w) /\
        module_at h (path_resolve h (path_dirname h graphPath) w) f /\
        f (input record) = Some (output record).
Proof.
  intros H. destruct (run_records _ _ _ _ H) as (doc & nodes & Hs & Ht & Hrec).
  exists doc, nodes. repeat split; auto.
  intros n Hn.
  destruct (Hrec n Hn) as (r & Hg & _ & _ & w & f & Hw & Hm & Hf).
  exists r, w, f. auto.
Qed.

Lemma final_state_outputs_come_from_the_modules_witness :
  exists doc nodes,
    serves demo_host "/app/graph.json" doc /\
    typed_nodes doc = inl nodes /\
    forall n, In n nodes ->
      exists record w f,
        JsMap.get (id n) pipeline_state = Some record /\
        wasm n = Some (JString w) /\
        module_at demo_host
          (path_resolve demo_host
             (path_dirname demo_host "/app/graph.json") w) f /\
        f (input record) = Some (output record).
Proof.
  apply (final_state_outputs_come_from_the_modules
           demo_host "/app/graph.json" []).
  reflexivity.
Defined.

(** ** The effects of a run that fails *)

(** X11. When a node fails after the nodes before it in the resolved
    order have completed, the run ends with the result and the effects of
    that node's execution: nothing is read, instantiated or called for
    the nodes after it. *)
Theorem run_stops_at_the_failing_node
    (h : Host) (graphPath : string) (tr tr1 tr2 : list event)
    (graph : json) (nodes completed rest : list NodeSpec) (node : NodeSpec)
    (state : ExecutionState) (e : error) :
  loadGraph h graphPath tr = (inl graph, tr1) ->
  typed_nodes graph = inl nodes ->
  topoSort nodes = inl (completed ++ node :: rest) ->
  executeAll h (path_dirname h graphPath) completed JsMap.empty tr1
    = (inl state, tr2) ->
  fst (executeNode h (path_dirname h graphPath) node state tr2) = inr e ->
  runGraph h graphPath tr =
    (inr e, snd (executeNode h (path_dirname h graphPath) node state tr2)).
Proof.
  intros Hload Htyped Hsort Hdone Hnode.
  rewrite runGraph_unfold, Hload, Htyped, Hsort, executeAll_app, Hdone,
    executeAll_cons.
  destruct (executeNode h (path_dirname h graphPath) node state tr2)
    as [[st|e'] tr3]; simpl in *; congruence.
Qed.

Lemma run_stops_at_the_failing_node_witness :
  runGraph broken_host "/app/graph.json" [] =
    (inr (ReadFailure "/app/nodes/missing.wasm"),
     [ReadFile "/app/graph.json"; ReadFile "/app/nodes/fetchUser.wasm";
      Instantiate "fetchUser"; Invoke "fetchUser" 0;
      ReadFile "/app/nodes/missing.wasm"]).
Proof.
  apply (run_stops_at_the_failing_node broken_host "/app/graph.json" []
           [ReadFile "/app/graph.json"]
           [ReadFile "/app/graph.json"; ReadFile "/app/nodes/fetchUser.wasm";
            Instantiate "fetchUser"; Invoke "fetchUser" 0]
           (pipeline_doc "nodes/fetchUser.wasm" "nodes/missing.wasm"
                         "nodes/renderProfile.wasm")
           (pipeline_nodes "nodes/fetchUser.wasm" "nodes/missing.wasm"
                           "nodes/renderProfile.wasm")
           [ {| id := "fetchUser";
                wasm := Some (JString "nodes/fetchUser.wasm");
                dependsOn := None |} ]
           [ {| id := "renderProfile";
                wasm := Some (JString "nodes/renderProfile.wasm");
                dependsOn := Some ["calcDiscount"] |} ]
           {| id := "calcDiscount";
              wasm := Some (JString "nodes/missing.wasm");
              dependsOn := Some ["fetchUser"] |}
           [("fetchUser",
             {| input := 0; output := 1001; dependencies := [] |})]);
    reflexivity.
Defined.

(** ** The report *)

Lemma last_key_snoc (state : ExecutionState) k r :
  last_key (state ++ [(k, r)]) = Some k.
Proof.
  unfold last_key, JsMap.keys. rewrite map_app, rev_app_distr. reflexivity.
Qed.

Lemma last_key_in (state : ExecutionState) k :
  last_key state = Some k -> In k (JsMap.keys state).
Proof.
  unfold last_key. destruct (rev (JsMap.keys state)) as [|k' l] eqn:E;
    [discriminate|].
  intros H. inversion H; subst. apply in_rev. rewrite E. now left.
Qed.

(** X12. [logState] never throws: the record it reads for the last key of
    the state is always there. *)
Theorem logState_never_throws (state : ExecutionState) :
  exists text, logState state = Some text.
Proof.
  unfold logState, logState_lines.
  destruct (last_key state) as [k|] eqn:Ek; [|eauto].
  destruct (String.eqb k ""); [eauto|].
  destruct (JsMap.get k state) as [r|] eqn:Eg; [eauto|].
  exfalso. apply get_none_iff in Eg. apply Eg. now apply last_key_in.
Qed.

Lemma logState_lines_snoc (state : ExecutionState) k r :
  NoDup (JsMap.keys (state ++ [(k, r)])) ->
  logState_lines (state ++ [(k, r)]) =
    Some (map entry_line (state ++ [(k, r)]) ++
          (if String.eqb k "" then []
           else [narrative_line (state ++ [(k, r)]) r])).
Proof.
  intros Hnd. unfold logState_lines. rewrite last_key_snoc.
  destruct (String.eqb k "") eqn:Ek.
  - now rewrite app_nil_r.
  - assert (Hget : JsMap.get k (state ++ [(k, r)]) = Some r).
    { rewrite get_app_fresh.
      - simpl. now rewrite String.eqb_refl.
      - apply get_none_iff. unfold JsMap.keys in Hnd.
        rewrite map_app in Hnd. simpl in Hnd.
        apply NoDup_remove_2 in Hnd. now rewrite app_nil_r in Hnd. }
    rewrite Hget. reflexivity.
Qed.

(** X13. For a state with distinct keys whose numbers are i32 values, the
    report has one line per record, in insertion order.  When the last key
    is not the empty string, a closing sentence follows: it gives the
    output of the last record as the score and, as the user, the output
    recorded under [fetchUser], or [???] when there is none.  When the
    last key is the empty string there is no closing sentence. *)
Theorem logState_closes_with_the_last_record
    (state : ExecutionState) (k : string) (r : ExecutionRecord) :
  NoDup (JsMap.keys (state ++ [(k, r)])) ->
  i32_state (state ++ [(k, r)]) ->
  logState_lines (state ++ [(k, r)]) =
    Some (map entry_line (state ++ [(k, r)]) ++
          (if String.eqb k "" then []
           else [narrative_line (state ++ [(k, r)]) r])).
Proof. intros Hnd _. exact (logState_lines_snoc state k r Hnd). Qed.

Lemma logState_closes_with_the_last_record_witness :
  logState_lines
    ([("fetchUser", {| input := 0; output := 1001; dependencies := [] |})]
     ++ [("calcDiscount",
          {| input := 1001; output := 2001;
             dependencies := ["fetchUser"] |})])
  = Some ["fetchUser: input=0 -> output=1001 (deps: none)";
          "calcDiscount: input=1001 -> output=2001 (deps: fetchUser)";
          "Final narrative: User 1001 receives discount score 2001."].
Proof.
  apply (logState_closes_with_the_last_record
           [("fetchUser",
             {| input := 0; output := 1001; dependencies := [] |})]
           "calcDiscount"
           {| input := 1001; output := 2001;
              dependencies := ["fetchUser"] |}).
  - concrete_nodup.
  - repeat constructor; simpl; unfold in_i32; lia.
Defined.

Lemma no_separator_in_none (x t : string) :
  (x ++ ", " ++ t)%string <> "none".
Proof.
  destruct x as [|c1 [|c2 [|c3 [|c4 [|c5 x]]]]]; simpl; intros H;
    inversion H.
Qed.

Lemma array_join_empty ds :
  array_join ", " ds = "" <-> ds = [] \/ ds = [""].
Proof.
  split.
  - destruct ds as [|x [|y rest]]; simpl; intros H; auto.
    + subst. auto.
    + destruct x; discriminate.
  - intros [->| ->]; reflexivity.
Qed.

Lemma array_join_none ds :
  array_join ", " ds = "none" <-> ds = ["none"].
Proof.
  split.
  - destruct ds as [|x [|y rest]]; intros H.
    + discriminate.
    + simpl in H. now subst.
    + exfalso. exact (no_separator_in_none x _ H).
  - intros ->. reflexivity.
Qed.

(** X14. The line of a record shows [none] for its dependencies in three
    cases only: no dependency, the empty string as only dependency, and
    the string [none] as only dependency. *)
Theorem report_shows_none_exactly_when (ds : list string) :
  or_none (array_join ", " ds) = "none" <->
  ds = [] \/ ds = [""] \/ ds = ["none"].
Proof.
  unfold or_none. destruct (String.eqb_spec (array_join ", " ds) "") as [E|E].
  - split; auto. intros _. apply array_join_empty in E. tauto.
  - rewrite array_join_none. split.
    + auto.
    + intros [->|[->|H]]; auto; exfalso; apply E; reflexivity.
Qed.

(** X15. The report of a run, for a description whose nodes fit
    [interface NodeSpec] and modules that return i32 values.  Applied to
    the state that the run returns, [logState] builds one line per node,
    in the resolved order of execution; when the id of the node executed
    last is not the empty string, one more line follows, the closing
    sentence with that node's output as the score. *)
Theorem report_follows_the_execution_order
    (h : Host) (graphPath : string) (tr : list event)
    (doc : json) (nodes : list NodeSpec) (state : ExecutionState) :
  serves h graphPath doc ->
  typed_nodes doc = inl nodes ->
  fst (runGraph h graphPath tr) = inl state ->
  i32_state state ->
  exists ordered lines,
    topoSort nodes = inl ordered /\
    JsMap.keys state = ids ordered /\
    logState_lines state = Some lines /\
    firstn (List.length ordered) lines = map entry_line state /\
    (forall before n, ordered = before ++ [n] ->
       exists r,
         JsMap.get (id n) state = Some r /\
         lines = map entry_line state ++
                 (if String.eqb (id n) "" then []
                  else [narrative_line state r])).
Proof.
  intros Hs Ht H _.
  destruct (typed_nodes_inl _ _ Ht) as (items & Hn & _).
  rewrite runGraph_unfold, (loadGraph_served _ _ _ _ _ Hs Hn), Ht in H.
  destruct (topoSort nodes) as [ordered|e] eqn:Hsort; [|discriminate].
  destruct (executeAll h _ ordered _ _) as [[st|e] tr'] eqn:Hall;
    simpl in H; [|discriminate].
  inversion H; subst st. clear H.
  destruct (topoSort_inl _ _ Hsort) as [Hnd _].
  destruct (topoSort_sound _ _ Hsort) as [Hperm _].
  assert (Hnd' : NoDup (ids ordered)).
  { eapply Permutation_NoDup; [|exact Hnd]. now apply Permutation_map. }
  destruct (executeAll_appends h _ _ _ _ _ _ Hall Hnd') as (added & Hst & Hk).
  simpl in Hst. subst added.
  assert (Hlen : List.length ordered = List.length (map entry_line state)).
  { rewrite length_map. unfold JsMap.keys, ids in Hk.
    apply (f_equal (@List.length string)) in Hk.
    rewrite !length_map in Hk. auto. }
  exists ordered. clear Hall.
  destruct state as [|e0 st0] using rev_ind.
  - exists []. repeat split; auto.
    + now destruct (List.length ordered).
    + intros before n Heq. subst ordered. unfold ids in Hk.
      rewrite map_app in Hk. destruct (map id before); discriminate.
  - clear IHst0. destruct e0 as [k r].
    assert (Hkeys : NoDup (JsMap.keys (st0 ++ [(k, r)]))) by now rewrite Hk.
    exists (map entry_line (st0 ++ [(k, r)]) ++
            (if String.eqb k "" then []
             else [narrative_line (st0 ++ [(k, r)]) r])).
    repeat split; auto.
    + now apply logState_lines_snoc.
    + rewrite Hlen.
      replace (List.length (map entry_line (st0 ++ [(k, r)])))
        with (List.length (map entry_line (st0 ++ [(k, r)])) + 0) by lia.
      rewrite firstn_app_2. simpl. now rewrite app_nil_r.
    + intros before n Heq. subst ordered. exists r.
      unfold JsMap.keys, ids in Hk. rewrite !map_app in Hk. simpl in Hk.
      apply app_inj_tail in Hk. destruct Hk as [_ Hkn]. subst k.
      split; [|reflexivity].
      rewrite get_app_fresh.
      * simpl. now rewrite String.eqb_refl.
      * apply get_none_iff. unfold JsMap.keys in Hkeys.
        rewrite map_app in Hkeys. simpl in Hkeys.
        apply NoDup_remove_2 in Hkeys. now rewrite app_nil_r in Hkeys.
Qed.

Lemma report_follows_the_execution_order_witness :
  exists ordered lines,
    topoSort (pipeline_nodes "nodes/fetchUser.wasm" "nodes/calcDiscount.wasm"
                             "nodes/renderProfile.wasm") = inl ordered /\
    JsMap.keys pipeline_state = ids ordered /\
    logState_lines pipeline_state = Some lines /\
    firstn (List.length ordered) lines = map entry_line pipeline_state /\
    (forall before n, ordered = before ++ [n] ->
       exists r,
         JsMap.get (id n) pipeline_state = Some r /\
         lines = map entry_line pipeline_state ++
                 (if String.eqb (id n) "" then []
                  else [narrative_line pipeline_state r])).
Proof.
  apply (report_follows_the_execution_order demo_host "/app/graph.json" []
           (pipeline_doc "nodes/fetchUser.wasm" "nodes/calcDiscount.wasm"
                         "nodes/renderProfile.wasm")).
  - exists "graph". split; reflexivity.
  - reflexivity.
  - reflexivity.
  - repeat constructor; simpl; unfold in_i32; lia.
Defined.

(** ** The resolver on documents outside the interface *)

Lemma kget_lift {V W : Type} (f : V -> W) (m : JsMap.t V) k :
  KeyMap.get (KString k) (lift_map f m) =
  match JsMap.get k m with
  | Some v => Some (f v)
  | None => None
  end.
Proof.
  induction m as [|[k' v] m IH]; simpl; [reflexivity|].
  destruct (String.eqb k k'); auto.
Qed.

Lemma kset_lift {V W : Type} (f : V -> W) (m : JsMap.t V) k v :
  KeyMap.set (KString k) (f v) (lift_map f m) = lift_map f (JsMap.set k v m).
Proof.
  induction m as [|[k' v'] m IH]; simpl; [reflexivity|].
  destruct (String.eqb k k'); simpl; [reflexivity|]. now rewrite IH.
Qed.

Lemma byId_get_related (m : JsMap.t NodeSpec) (jm : KeyMap.t json) k :
  Forall2 (fun e je => fst je = KString (fst e) /\ decoded (snd e) (snd je))
          m jm ->
  match JsMap.get k m, KeyMap.get (KString k) jm with
  | Some n, Some v => decoded n v
  | None, None => True
  | _, _ => False
  end.
Proof.
  induction 1 as [|[k' n] [jk v] m jm [Hk Hd] _ IH]; simpl; [exact I|].
  simpl in Hk, Hd. subst jk. simpl.
  destruct (String.eqb k k'); auto.
Qed.

Lemma byId_has_related (m : JsMap.t NodeSpec) (jm : KeyMap.t json) k :
  Forall2 (fun e je => fst je = KString (fst e) /\ decoded (snd e) (snd je))
          m jm ->
  KeyMap.has (KString k) jm = JsMap.has k m.
Proof.
  intros H. pose proof (byId_get_related m jm k H) as Hg.
  unfold KeyMap.has, JsMap.has.
  destruct (JsMap.get k m), (KeyMap.get (KString k) jm); tauto.
Qed.

Lemma byId_set_related (m : JsMap.t NodeSpec) (jm : KeyMap.t json) k n v :
  Forall2 (fun e je => fst je = KString (fst e) /\ decoded (snd e) (snd je))
          m jm ->
  decoded n v ->
  Forall2 (fun e je => fst je = KString (fst e) /\ decoded (snd e) (snd je))
          (JsMap.set k n m) (KeyMap.set (KString k) v jm).
Proof.
  intros H Hd. induction H as [|[k' n'] [jk v'] m jm [Hk Hd'] Ht IH]; simpl.
  - constructor; [|constructor]. split; [reflexivity | exact Hd].
  - simpl in Hk, Hd'. subst jk. simpl.
    destruct (String.eqb k k'); constructor; auto; split; auto.
Qed.

Lemma decoded_id n v :
  decoded n v -> member "id" v = inl (Some (JString (id n))).
Proof.
  intros H. destruct (asNodeSpec_fields _ _ H) as (fields & -> & Hid & _).
  simpl. now rewrite Hid.
Qed.

Lemma decoded_truthy n v : decoded n v -> falsy v = false.
Proof.
  intros H. destruct (asNodeSpec_fields _ _ H) as (fields & -> & _).
  reflexivity.
Qed.

Lemma decoded_deps n v :
  decoded n v ->
  exists dv items,
    member "dependsOn" v = inl dv /\
    iterate dv = inl items /\
    strings_of items = Some (deps n).
Proof.
  unfold decoded. destruct v; try discriminate. simpl.
  destruct (field "id" fields) as [[]|]; try discriminate.
  destruct (field "dependsOn" fields) as [[]|] eqn:Ed; try discriminate;
    intros H.
  - inversion H; subst. exists (Some JNull), []. auto.
  - destruct (strings_of items) as [ds|] eqn:Es; [|discriminate].
    inversion H; subst. exists (Some (JArray items)), items. auto.
  - inversion H; subst. exists None, []. auto.
Qed.

Lemma link_deps_related n : forall items ds tb jtb,
  strings_of items = Some ds ->
  same_tables tb jtb ->
  same_outcome same_tables
    (link_deps n ds tb) (js_link_deps (KString (id n)) items jtb).
Proof.
  induction items as [|item items IH]; intros ds tb jtb Hs HT; simpl in Hs.
  - inversion Hs; subst. exact HT.
  - destruct item; try discriminate.
    destruct (strings_of items) as [ds'|] eqn:Es; [|discriminate].
    inversion Hs; subst ds. simpl.
    destruct HT as (Hdeg & Hadj & Hby).
    rewrite (byId_has_related _ _ s Hby).
    destruct (JsMap.has s (byId tb)); simpl; [|reflexivity].
    apply IH; [reflexivity|].
    split; [|split]; simpl.
    + rewrite Hdeg. unfold js_degree, degree.
      rewrite (kget_lift (fun d => d)).
      destruct (JsMap.get (id n) (inDegree tb));
        apply (kset_lift (fun d : Z => d)).
    + rewrite Hadj. unfold js_push_dependent, push_dependent.
      rewrite kget_lift.
      destruct (JsMap.get s (adjacency tb)) as [l|]; [|reflexivity].
      rewrite <- kset_lift. now rewrite map_app.
    + exact Hby.
Qed.

Lemma link_related : forall nodes items tb jtb,
  Forall2 decoded nodes items ->
  same_tables tb jtb ->
  same_outcome same_tables (link nodes tb) (js_link items jtb).
Proof.
  induction nodes as [|n nodes IH]; intros items tb jtb HF HT;
    inversion HF as [|? v ? items' Hv HF']; subst; simpl.
  - exact HT.
  - destruct (decoded_deps n v Hv) as (dv & ditems & Hm & Hi & Hs).
    rewrite Hm, Hi, (decoded_id n v Hv). simpl.
    pose proof (link_deps_related n ditems (deps n) tb jtb Hs HT) as HD.
    destruct (link_deps n (deps n) tb) as [tb1|e],
             (js_link_deps (KString (id n)) ditems jtb) as [jtb1|je];
      simpl in HD; try contradiction; auto.
Qed.

Lemma index_nodes_related : forall nodes items tb jtb,
  Forall2 decoded nodes items ->
  same_tables tb jtb ->
  same_outcome same_tables
    (index_nodes nodes tb) (js_index_nodes items jtb).
Proof.
  induction nodes as [|n nodes IH]; intros items tb jtb HF HT;
    inversion HF as [|? v ? items' Hv HF']; subst; simpl.
  - exact HT.
  - rewrite (decoded_id n v Hv). simpl.
    destruct HT as (Hdeg & Hadj & Hby).
    rewrite (byId_has_related _ _ (id n) Hby).
    destruct (JsMap.has (id n) (byId tb)); simpl; [reflexivity|].
    apply IH; auto. split; [|split]; simpl.
    + rewrite Hdeg. apply (kset_lift (fun d : Z => d)).
    + rewrite Hadj. apply (kset_lift (map KString) _ _ []).
    + now apply byId_set_related.
Qed.

Lemma js_seed_lift (m : JsMap.t Z) :
  js_seed (lift_map (fun d => d) m) = map KString (seed m).
Proof.
  induction m as [|[k d] m IH]; simpl; [reflexivity|].
  destruct (d =? 0)%Z; simpl; now rewrite IH.
Qed.

Lemma relax_related : forall nbrs deg queue,
  js_relax (map KString nbrs) (lift_map (fun d => d) deg)
           (map KString queue) =
  match relax nbrs deg queue with
  | inl (deg', queue') =>
      inl (lift_map (fun d => d) deg', map KString queue')
  | inr e => inr (js_of_error e)
  end.
Proof.
  induction nbrs as [|x nbrs IH]; intros deg queue; simpl; [reflexivity|].
  unfold js_degree, degree. rewrite (kget_lift (fun d => d)).
  set (d := match JsMap.get x deg with Some d => d | None => 0%Z end).
  replace (match match JsMap.get x deg with
                 | Some v => Some v
                 | None => None
                 end with
           | Some d0 => d0
           | None => 0%Z
           end) with d by (unfold d; destruct (JsMap.get x deg); reflexivity).
  destruct (d - 1 <? 0)%Z; [reflexivity|].
  rewrite (kset_lift (fun d : Z => d)).
  destruct (d - 1 =? 0)%Z.
  - change (map KString queue ++ [KString x])
      with (map KString queue ++ map KString [x]).
    rewrite <- map_app. apply IH.
  - apply IH.
Qed.

Lemma drain_related tb jtb : same_tables tb jtb ->
  forall fuel deg queue res jres,
    Forall2 decoded res jres ->
    same_outcome (Forall2 decoded)
      (drain fuel tb deg queue res)
      (js_drain fuel jtb (lift_map (fun d => d) deg) (map KString queue)
                jres).
Proof.
  intros (Hdeg & Hadj & Hby).
  induction fuel as [|fuel IH]; intros deg queue res jres HR;
    destruct queue as [|k queue]; simpl; auto.
  pose proof (byId_get_related _ _ k Hby) as Hg.
  destruct (JsMap.get k (byId tb)) as [n|],
           (KeyMap.get (KString k) (js_byId jtb)) as [v|];
    try contradiction; [|reflexivity].
  rewrite (decoded_truthy n v Hg).
  assert (Hdep : js_dependents (KString k) (js_adjacency jtb)
                 = map KString (dependents k (adjacency tb))).
  { unfold js_dependents, dependents. rewrite Hadj, kget_lift.
    now destruct (JsMap.get k (adjacency tb)). }
  rewrite Hdep, relax_related.
  destruct (relax _ deg queue) as [[deg' queue']|e]; [|reflexivity].
  apply IH. apply Forall2_app; auto.
Qed.

Lemma topoSort_related nodes items :
  Forall2 decoded nodes items ->
  same_outcome (Forall2 decoded) (topoSort nodes) (js_topoSort items).
Proof.
  intros HF. unfold topoSort, js_topoSort.
  assert (H0 : same_tables no_tables js_no_tables).
  { repeat split. constructor. }
  pose proof (index_nodes_related nodes items _ _ HF H0) as HI.
  destruct (index_nodes nodes no_tables) as [tb0|e],
           (js_index_nodes items js_no_tables) as [jtb0|je];
    simpl in HI; try contradiction; [|now subst].
  pose proof (link_related nodes items _ _ HF HI) as HL.
  destruct (link nodes tb0) as [tb|e], (js_link items jtb0) as [jtb|je];
    simpl in HL; try contradiction; [|now subst].
  pose proof HL as (Hdeg & _).
  rewrite Hdeg, js_seed_lift.
  pose proof (drain_related tb jtb HL (List.length nodes) (inDegree tb)
                (seed (JsMap.entries (inDegree tb))) [] []
                (Forall2_nil _)) as HD.
  rewrite (Forall2_length HF) in *.
  unfold JsMap.entries in *.
  destruct (drain _ tb _ _ []) as [res|e],
           (js_drain _ jtb _ _ []) as [jres|je];
    simpl in HD; try contradiction; [|now subst].
  rewrite (Forall2_length HD).
  destruct (negb _); simpl; auto.
Qed.

Lemma js_of_error_node_missing e k :
  js_of_error e = JsNodeMissing k -> exists s, e = NodeMissing s.
Proof. destruct e; simpl; try discriminate. eauto. Qed.

Lemma js_of_error_negative e k :
  js_of_error e = JsNegativeIndegree k -> exists s, e = NegativeIndegree s.
Proof. destruct e; simpl; try discriminate. eauto. Qed.

(** On documents that fit the interface the bound of the queue loop of
    [js_topoSort] is not reached either. *)
Lemma js_topoSort_never_out_of_fuel items nodes :
  asNodeSpecs items = Some nodes -> js_topoSort items <> inr JsOutOfFuel.
Proof.
  intros Hd Hjs.
  pose proof (topoSort_related nodes items (asNodeSpecs_Forall2 _ _ Hd)) as HR.
  rewrite Hjs in HR. destruct (topoSort nodes) as [res|e] eqn:Hs;
    simpl in HR; [contradiction|].
  pose proof (topoSort_errors _ _ Hs) as He.
  destruct He as [[k ->] | [(n & d & ->) | ->]]; discriminate.
Qed.

(** ** Claims about the internal checks *)

(** C10, as stated, fails.  [loadGraph] accepts any array under [nodes].
    On the description whose only node is the number 0, both checks pass:
    the id read on the number is [undefined], met once, and there is no
    dependency.  The queue loop then finds the number itself stored under
    that id, the test [!node] of line 71 holds because 0 is falsy, and
    line 72 throws the missing-node error. *)
Lemma falsy_node_fires_the_missing_node_check :
  fst (loadGraph (demo_host_with zero_node_doc) "/app/graph.json" [])
    = inl zero_node_doc /\
  nodes_of zero_node_doc = Some (JArray [JNumber 0]) /\
  (exists tb0 tb,
     js_index_nodes [JNumber 0] js_no_tables = inl tb0 /\
     js_link [JNumber 0] tb0 = inl tb) /\
  js_topoSort [JNumber 0] = inr (JsNodeMissing KUndefined).
Proof.
  split; [reflexivity|]. split; [reflexivity|]. split.
  - eexists. eexists. split; reflexivity.
  - reflexivity.
Qed.

(** C10, as the code has it.  On a description whose nodes fit
    [interface NodeSpec] (objects with a string [id] and a [dependsOn] that
    is absent, null or an array of strings) the internal checks never
    fire: [topoSort] throws neither the missing-node error nor the
    negative in-degree error, a [dependsOn] with repeated entries
    included, and a run never stops on a missing upstream record,
    whichever node of the resolved order is being executed. *)
Theorem internal_checks_never_fire_within_the_interface
    (items : list json) (nodes : list NodeSpec) :
  asNodeSpecs items = Some nodes ->
  (forall k, js_topoSort items <> inr (JsNodeMissing k)) /\
  (forall k, js_topoSort items <> inr (JsNegativeIndegree k)) /\
  (forall e, ResolverFault e -> topoSort nodes <> inr e) /\
  (forall h graphPath tr graph,
     fst (loadGraph h graphPath tr) = inl graph ->
     nodes_of graph = Some (JArray items) ->
     forall d, fst (runGraph h graphPath tr) <> inr (MissingUpstreamState d)).
Proof.
  intros Hd.
  pose proof (topoSort_related nodes items (asNodeSpecs_Forall2 _ _ Hd)) as HR.
  destruct (typed_internal_checks_never_fire nodes) as [Hfault Hrun].
  split; [|split; [|split]].
  - intros k Hjs. rewrite Hjs in HR.
    destruct (topoSort nodes) as [res|e] eqn:Hs; simpl in HR;
      [contradiction|].
    symmetry in HR. apply js_of_error_node_missing in HR.
    destruct HR as [s ->]. apply (Hfault (NodeMissing s)); auto.
    left. eauto.
  - intros k Hjs. rewrite Hjs in HR.
    destruct (topoSort nodes) as [res|e] eqn:Hs; simpl in HR;
      [contradiction|].
    symmetry in HR. apply js_of_error_negative in HR.
    destruct HR as [s ->]. apply (Hfault (NegativeIndegree s)); auto.
    right. eauto.
  - exact Hfault.
  - intros h graphPath tr graph Hload Hnodes d.
    apply (Hrun h graphPath tr graph Hload).
    unfold typed_nodes. now rewrite Hnodes, Hd.
Qed.

Lemma internal_checks_never_fire_within_the_interface_witness :
  js_topoSort
    [node_object "a" "a.wasm" []; node_object "b" "b.wasm" ["a"; "a"]]
    <> inr (JsNegativeIndegree (KString "b")) /\
  fst (runGraph demo_host "/app/graph.json" [])
    <> inr (MissingUpstreamState "fetchUser").
Proof.
  split.
  - apply (proj1 (proj2 (internal_checks_never_fire_within_the_interface
             [node_object "a" "a.wasm" []; node_object "b" "b.wasm" ["a"; "a"]]
             [ {| id := "a"; wasm := Some (JString "a.wasm");
                  dependsOn := Some [] |};
               {| id := "b"; wasm := Some (JString "b.wasm");
                  dependsOn := Some ["a"; "a"] |} ]
             eq_refl))).
  - apply (proj2 (proj2 (proj2
             (internal_checks_never_fire_within_the_interface
                [ JObject [("id", JString "fetchUser");
                           ("wasm", JString "nodes/fetchUser.wasm")];
                  node_object "calcDiscount" "nodes/calcDiscount.wasm"
                              ["fetchUser"];
                  node_object "renderProfile" "nodes/renderProfile.wasm"
                              ["calcDiscount"] ]
                (pipeline_nodes "nodes/fetchUser.wasm"
                   "nodes/calcDiscount.wasm" "nodes/renderProfile.wasm")
                eq_refl)))
             demo_host "/app/graph.json" [] _ eq_refl eq_refl).
Defined.
